(** * Candidate state of the tiglabs raft FSM (vendored in cubefs)

    Shallow embedding of [raft_fsm_candidate.go] ([becomeCandidate],
    [stepCandidate], [isNeedBecomeFollower], [campaign], [poll]) and of the
    transport sender's index choice ([newTransportSender]).  The FSM helpers
    that the candidate code calls but whose source is not part of this
    development ([reset], [becomeFollower], [becomeLeader], [quorum], [send],
    the follower's vote rule, the term rule of [Step]) are modelled from the
    specification and marked as such.

    Terms and indices are [nat]: the [uint64] wrap-around of a term would
    need 2^64 elections and is not modelled.  A Go panic is [None]. *)

From stdpp Require Import base gmap sets list sorting.
From Stdlib Require Import ZArith.

(* ------------------------------------------------------------------ *)
(** ** Data model *)

Inductive stateType :=
  | stateFollower
  | stateCandidate
  | stateElectionAck
  | stateLeader.

#[global] Instance stateType_eq_dec : EqDecision stateType.
Proof. solve_decision. Defined.

(** The message kinds of [proto] that the election code touches. *)
Inductive msgType :=
  | LocalMsgProp
  | ReqMsgAppend
  | RespMsgAppend
  | ReqMsgHeartBeat
  | RespMsgHeartBeat
  | ReqMsgElectAck
  | RespMsgElectAck
  | ReqMsgVote
  | RespMsgVote.

#[global] Instance msgType_eq_dec : EqDecision msgType.
Proof. solve_decision. Defined.

(** [proto.Message], restricted to the fields the election code reads or
    writes. *)
Record message := mkMessage {
  mType : msgType;
  mFrom : nat;
  mTo : nat;
  mTerm : nat;
  mLogTerm : nat;
  mIndex : nat;
  mReject : bool;
  mForceVote : bool
}.

(** [proto.GetMessage()] followed by setting [Type] and [To]: every other
    field is zero. *)
Definition newMessage (ty : msgType) (to : nat) : message :=
  mkMessage ty 0 to 0 0 0 false false.

Definition set_reject (b : bool) (m : message) : message :=
  mkMessage (mType m) (mFrom m) (mTo m) (mTerm m) (mLogTerm m) (mIndex m) b
    (mForceVote m).

Definition set_index_logterm (li lt : nat) (m : message) : message :=
  mkMessage (mType m) (mFrom m) (mTo m) (mTerm m) lt li (mReject m)
    (mForceVote m).

Definition set_force (b : bool) (m : message) : message :=
  mkMessage (mType m) (mFrom m) (mTo m) (mTerm m) (mLogTerm m) (mIndex m)
    (mReject m) b.

(** A replica of the group; [isLearner] peers receive entries, never vote. *)
Record replica := mkReplica { isLearner : bool }.

(** [NoLeader] (and "no vote") is the id 0, as in the source. *)
Definition NoLeader : nat := 0.

(** [raftFsm], with the fields the election code uses.  [nodeID],
    [electionTick] and [leaseCheck] are [r.config.NodeID],
    [r.config.ElectionTick] and [r.config.LeaseCheck]; the log is abstracted
    to [r.raftLog.lastIndexAndTerm()]; [msgs] is the outbox [r.msgs].  The
    installed [step]/[tick] function pointers are determined by [state]. *)
Record raftFsm := mkRaftFsm {
  nodeID : nat;
  electionTick : nat;
  leaseCheck : bool;
  term : nat;
  vote : nat;
  leader : nat;
  state : stateType;
  votes : gmap nat bool;
  replicas : gmap nat replica;
  lastIndex : nat;
  lastTerm : nat;
  electionElapsed : nat;
  msgs : list message
}.

Definition set_state (s : stateType) (r : raftFsm) : raftFsm :=
  mkRaftFsm (nodeID r) (electionTick r) (leaseCheck r) (term r) (vote r)
    (leader r) s (votes r) (replicas r) (lastIndex r) (lastTerm r)
    (electionElapsed r) (msgs r).

Definition set_vote (v : nat) (r : raftFsm) : raftFsm :=
  mkRaftFsm (nodeID r) (electionTick r) (leaseCheck r) (term r) v
    (leader r) (state r) (votes r) (replicas r) (lastIndex r) (lastTerm r)
    (electionElapsed r) (msgs r).

Definition set_leader (l : nat) (r : raftFsm) : raftFsm :=
  mkRaftFsm (nodeID r) (electionTick r) (leaseCheck r) (term r) (vote r)
    l (state r) (votes r) (replicas r) (lastIndex r) (lastTerm r)
    (electionElapsed r) (msgs r).

Definition set_votes (vs : gmap nat bool) (r : raftFsm) : raftFsm :=
  mkRaftFsm (nodeID r) (electionTick r) (leaseCheck r) (term r) (vote r)
    (leader r) (state r) vs (replicas r) (lastIndex r) (lastTerm r)
    (electionElapsed r) (msgs r).

Definition set_elapsed (e : nat) (r : raftFsm) : raftFsm :=
  mkRaftFsm (nodeID r) (electionTick r) (leaseCheck r) (term r) (vote r)
    (leader r) (state r) (votes r) (replicas r) (lastIndex r) (lastTerm r)
    e (msgs r).

Definition set_log (li lt : nat) (r : raftFsm) : raftFsm :=
  mkRaftFsm (nodeID r) (electionTick r) (leaseCheck r) (term r) (vote r)
    (leader r) (state r) (votes r) (replicas r) li lt
    (electionElapsed r) (msgs r).

Definition set_msgs (ms : list message) (r : raftFsm) : raftFsm :=
  mkRaftFsm (nodeID r) (electionTick r) (leaseCheck r) (term r) (vote r)
    (leader r) (state r) (votes r) (replicas r) (lastIndex r) (lastTerm r)
    (electionElapsed r) ms.

Definition set_term (t : nat) (r : raftFsm) : raftFsm :=
  mkRaftFsm (nodeID r) (electionTick r) (leaseCheck r) t (vote r)
    (leader r) (state r) (votes r) (replicas r) (lastIndex r) (lastTerm r)
    (electionElapsed r) (msgs r).

(* ------------------------------------------------------------------ *)
(** ** FSM helpers modelled from the specification *)

(** Modelled from the spec: [raftFsm.send] (not in this development).
    Every message carries [(type, from, to, term)]: the sender stamps its
    own id and, except on a local proposal, its current term, then queues
    the message in the outbox. *)
Definition stamp (r : raftFsm) (m : message) : message :=
  let t := if decide (mType m = LocalMsgProp) then mTerm m else term r in
  mkMessage (mType m) (nodeID r) (mTo m) t (mLogTerm m) (mIndex m) (mReject m)
    (mForceVote m).

Definition send (r : raftFsm) (m : message) : raftFsm :=
  set_msgs (msgs r ++ [stamp r m]) r.

(** Modelled from the spec: [raftFsm.reset(term, lasti, isLeader)].
    Adopting a new term clears [votedFor]; the leader is forgotten, the
    election timer restarts and the vote tally of the previous round is
    discarded.  [lasti] and [isLeader] only initialise leader progress,
    which is not modelled. *)
Definition reset (r : raftFsm) (t : nat) : raftFsm :=
  mkRaftFsm (nodeID r) (electionTick r) (leaseCheck r) t
    (if decide (term r = t) then vote r else NoLeader)
    NoLeader (state r) ∅ (replicas r) (lastIndex r) (lastTerm r) 0 (msgs r).

(** Modelled from the spec: [raftFsm.becomeFollower(ctx, term, lead)]. *)
Definition becomeFollower (r : raftFsm) (t lead : nat) : raftFsm :=
  set_state stateFollower (set_leader lead (reset r t)).

(** The voters of a replica set: the non-learner peers. *)
Definition voterSet (reps : gmap nat replica) : gset nat :=
  dom (filter (λ kv : nat * replica, isLearner kv.2 = false) reps).

(** Modelled from the spec: [raftFsm.quorum()], a strict majority of the
    voters (learners are not counted in any quorum). *)
Definition quorum (r : raftFsm) : nat := size (voterSet (replicas r)) / 2 + 1.

(** Sends one message of kind [ty] to every replica other than the node,
    in the iteration order of the replica map. *)
Definition bcast (ty : msgType) (r : raftFsm) : raftFsm :=
  foldl (λ r0 (kv : nat * replica),
           if decide (kv.1 = nodeID r0) then r0
           else send r0 (set_index_logterm (lastIndex r0) (lastTerm r0)
                           (newMessage ty kv.1)))
        r (map_to_list (replicas r)).

(** Modelled from the spec: [raftFsm.bcastAppend]; entries are not
    modelled, the message carries the leader's last index and term. *)
Definition bcastAppend (r : raftFsm) : raftFsm := bcast ReqMsgAppend r.

(** Modelled from the spec: [raftFsm.becomeLeader]: same term, leader is
    the node itself, and a no-op entry is appended at the new term. *)
Definition becomeLeader (r : raftFsm) : raftFsm :=
  let r1 := reset r (term r) in
  set_log (S (lastIndex r1)) (term r1)
    (set_state stateLeader (set_leader (nodeID r1) r1)).

(** Modelled from the spec: [raftFsm.becomeElectionAck]: a newly elected
    node under lease-check enters [ElectionAck] and broadcasts [ElectAck]. *)
Definition becomeElectionAck (r : raftFsm) : raftFsm :=
  let r1 := reset r (term r) in
  bcast ReqMsgElectAck (set_state stateElectionAck (set_leader (nodeID r1) r1)).

(** Modelled from the spec: [raftFsm.handleAppendEntries]; the log is
    abstracted, the reply carries the node's last index. *)
Definition handleAppendEntries (r : raftFsm) (m : message) : raftFsm :=
  send r (set_index_logterm (lastIndex r) (lastTerm r)
            (newMessage RespMsgAppend (mFrom m))).

(* ------------------------------------------------------------------ *)
(** ** raft_fsm_candidate.go *)

(** [becomeCandidate]; [None] is the "invalid transition [leader ->
    candidate]" panic. *)
Definition becomeCandidate (r : raftFsm) : option raftFsm :=
  if decide (state r = stateLeader) then None
  else
    let r1 := reset r (S (term r)) in
    Some (set_state stateCandidate (set_vote (nodeID r1) r1)).

(** The granted count of [poll]: [for _, vv := range r.votes { if vv
    { granted++ } }]. *)
Definition grantedCount (vs : gmap nat bool) : nat :=
  map_fold (λ _ (vv : bool) (acc : nat), if vv then S acc else acc) 0 vs.

(** [poll(id, v)]: only the first response of a peer is recorded. *)
Definition poll (r : raftFsm) (id : nat) (v : bool) : raftFsm * nat :=
  let r1 := match votes r !! id with
            | Some _ => r
            | None => set_votes (<[id := v]> (votes r)) r
            end in
  (r1, grantedCount (votes r1)).

Definition stepCandidate (r : raftFsm) (m : message) : raftFsm :=
  match mType m with
  | LocalMsgProp => r
  | ReqMsgAppend =>
      handleAppendEntries (becomeFollower r (term r) (mFrom m)) m
  | ReqMsgHeartBeat => becomeFollower r (term r) (mFrom m)
  | ReqMsgElectAck =>
      let r1 := becomeFollower r (term r) (mFrom m) in
      send r1 (newMessage RespMsgElectAck (mFrom m))
  | ReqMsgVote =>
      send r (set_reject true (newMessage RespMsgVote (mFrom m)))
  | RespMsgVote =>
      let '(r1, gr) := poll r (mFrom m) (negb (mReject m)) in
      if decide (quorum r1 = gr) then
        if leaseCheck r1 then becomeElectionAck r1
        else bcastAppend (becomeLeader r1)
      else if decide (quorum r1 = size (votes r1) - gr) then
        becomeFollower r1 (term r1) NoLeader
      else r1
  | _ => r
  end.

(** [isNeedBecomeFollower]; the replica ids are sorted ascending and
    indexed by [term mod len]; [None] is the division-by-zero panic of an
    empty replica set. *)
Definition sortedPeerIDs (r : raftFsm) : list nat :=
  merge_sort (≤) (map fst (map_to_list (replicas r))).

Definition isNeedBecomeFollower (r : raftFsm) : option bool :=
  if decide (state r = stateCandidate) then
    let peerIDs := sortedPeerIDs r in
    match length peerIDs with
    | 0 => None
    | n => Some (bool_decide (nth (term r mod n) peerIDs 0 = nodeID r))
    end
  else Some false.

(** The vote-request loop of [campaign]. *)
Definition sendVoteRequests (r : raftFsm) (force : bool) : raftFsm :=
  foldl (λ r0 (kv : nat * replica),
           if decide (kv.1 = nodeID r0) then r0
           else if isLearner kv.2 then r0
           else send r0 (set_force force
                   (set_index_logterm (lastIndex r0) (lastTerm r0)
                      (newMessage ReqMsgVote kv.1))))
        r (map_to_list (replicas r)).

Definition campaign (r : raftFsm) (force : bool) : option raftFsm :=
  match isNeedBecomeFollower r with
  | None => None
  | Some true => Some (becomeFollower r (term r) NoLeader)
  | Some false =>
      match becomeCandidate r with
      | None => None
      | Some r1 =>
          let '(r2, gr) := poll r1 (nodeID r1) true in
          if decide (quorum r2 = gr) then
            Some (if leaseCheck r2 then becomeElectionAck r2 else becomeLeader r2)
          else Some (sendVoteRequests r2 force)
      end
  end.

(* ------------------------------------------------------------------ *)
(** ** Other states' handlers, modelled from the specification *)

Definition isVoter (r : raftFsm) (id : nat) : bool :=
  bool_decide (id ∈ voterSet (replicas r)).

(** Modelled from the spec: the vote-granting rule.  A vote for the
    requester is granted iff the node is a voter, has not voted in the
    term or voted for the same candidate, the requester's log is at least
    as up to date, and (lease-check on) no live leader was heard within an
    election timeout unless [forceVote] is set. *)
Definition handleVote (r : raftFsm) (m : message) : raftFsm :=
  let canVote := bool_decide (vote r = NoLeader) || bool_decide (vote r = mFrom m) in
  let upToDate := bool_decide (lastTerm r < mLogTerm m)
                  || (bool_decide (lastTerm r = mLogTerm m)
                      && bool_decide (lastIndex r ≤ mIndex m)) in
  let leased := leaseCheck r && negb (bool_decide (leader r = NoLeader))
                && bool_decide (electionElapsed r < electionTick r)
                && negb (mForceVote m) in
  if isVoter r (nodeID r) && canVote && upToDate && negb leased then
    send (set_elapsed 0 (set_vote (mFrom m) r))
      (set_reject false (newMessage RespMsgVote (mFrom m)))
  else send r (set_reject true (newMessage RespMsgVote (mFrom m))).

(** Modelled from the spec: the follower's handler.  A proposal is
    redirected to a known leader; without one it is left to the runtime,
    which answers [NotLeader]. *)
Definition stepFollower (r : raftFsm) (m : message) : raftFsm :=
  match mType m with
  | LocalMsgProp =>
      if decide (leader r = NoLeader) then r
      else send r (mkMessage (mType m) (mFrom m) (leader r) (mTerm m)
                     (mLogTerm m) (mIndex m) (mReject m) (mForceVote m))
  | ReqMsgAppend => handleAppendEntries (set_elapsed 0 (set_leader (mFrom m) r)) m
  | ReqMsgHeartBeat => set_elapsed 0 (set_leader (mFrom m) r)
  | ReqMsgElectAck =>
      send (set_elapsed 0 (set_leader (mFrom m) r))
        (newMessage RespMsgElectAck (mFrom m))
  | ReqMsgVote => handleVote r m
  | _ => r
  end.

(** Modelled from the spec: the leader's and the [ElectionAck] handlers,
    restricted to elections (replication and acks are not modelled). *)
Definition stepLeader (r : raftFsm) (m : message) : raftFsm :=
  match mType m with
  | ReqMsgVote => handleVote r m
  | _ => r
  end.

Definition stepElectionAck (r : raftFsm) (m : message) : raftFsm :=
  match mType m with
  | ReqMsgVote => handleVote r m
  | _ => r
  end.

Definition dispatch (r : raftFsm) (m : message) : raftFsm :=
  match state r with
  | stateFollower => stepFollower r m
  | stateCandidate => stepCandidate r m
  | stateElectionAck => stepElectionAck r m
  | stateLeader => stepLeader r m
  end.

Definition leaderMsg (ty : msgType) : bool :=
  match ty with
  | ReqMsgAppend | ReqMsgHeartBeat | ReqMsgElectAck => true
  | _ => false
  end.

Definition respType (ty : msgType) : option msgType :=
  match ty with
  | ReqMsgAppend => Some RespMsgAppend
  | ReqMsgHeartBeat => Some RespMsgHeartBeat
  | ReqMsgElectAck => Some RespMsgElectAck
  | ReqMsgVote => Some RespMsgVote
  | _ => None
  end.

(** Modelled from the spec: the term rule of [raftFsm.Step].  A higher
    term makes the node a follower of that term (with [votedFor] cleared)
    before the new state's handler runs; a request from a lower term is
    answered with a rejection carrying the local term, anything else from
    a lower term is dropped. *)
Definition Step (r : raftFsm) (m : message) : raftFsm :=
  if decide (mType m = LocalMsgProp) then dispatch r m
  else if decide (term r < mTerm m) then
    dispatch (becomeFollower r (mTerm m)
                (if leaderMsg (mType m) then mFrom m else NoLeader)) m
  else if decide (mTerm m < term r) then
    match respType (mType m) with
    | Some ty => send r (set_reject true (newMessage ty (mFrom m)))
    | None => r
    end
  else dispatch r m.

(* ------------------------------------------------------------------ *)
(** ** transport_sender.go: the input-channel index of [sender.send] *)

Open Scope Z_scope.

Definition u64 (z : Z) : Z := z mod 2 ^ 64.

(** [int(x)] of a [uint64] on a 64-bit platform (two's complement). *)
Definition int_of_u64 (x : Z) : Z := if x <? 2 ^ 63 then x else x - 2 ^ 64.

(** The power-of-two branch: [int(msg.ID&concurrency - 1)], which Go
    parses as [(msg.ID & concurrency) - 1] ([&] binds tighter than [-]). *)
Definition sendIdxPow2 (id concurrency : Z) : Z :=
  if 1 <? concurrency then int_of_u64 (u64 (Z.land id concurrency - 1)) else 0.

(** The general branch: [int(msg.ID % concurrency)]. *)
Definition sendIdxMod (id concurrency : Z) : Z :=
  if 1 <? concurrency then int_of_u64 (id mod concurrency) else 0.

(** The branch chosen by [newTransportSender]. *)
Definition sendIdx (id concurrency : Z) : Z :=
  if Z.land concurrency (u64 (concurrency - 1)) =? 0
  then sendIdxPow2 id concurrency else sendIdxMod id concurrency.

(** [sender.send(msg)]: [sender.inputc[idx] <- msg] on the slice of
    [concurrency] channels made by [newTransportSender]; an index outside
    [0, concurrency) is Go's index-out-of-range panic ([None]), otherwise
    the message goes to channel [idx]. *)
Definition senderSend (id concurrency : Z) : option Z :=
  let idx := sendIdx id concurrency in
  if (0 <=? idx) && (idx <? concurrency) then Some idx else None.

Close Scope Z_scope.

(* ------------------------------------------------------------------ *)
(** ** A group of nodes: the election system *)

(** Modelled from the spec: a crash and restart.  The hard state (term,
    vote) is durable; everything else is rebuilt as a follower. *)
Definition restart (r : raftFsm) : raftFsm :=
  mkRaftFsm (nodeID r) (electionTick r) (leaseCheck r) (term r) (vote r)
    NoLeader stateFollower ∅ (replicas r) (lastIndex r) (lastTerm r) 0 [].

(** Local events of one node.  [EvCampaign] is the randomized election
    timer (or a [TimeoutNow]) firing; [EvAckQuorum] is an [ElectionAck]
    node receiving its quorum of acks; [EvStepDown] is a leader losing its
    quorum. *)
Inductive event :=
  | EvCampaign (force : bool)
  | EvTick
  | EvHeartbeat
  | EvPropose
  | EvAckQuorum
  | EvStepDown
  | EvRestart.

(** Modelled from the spec: how the group runtime drives the FSM on a
    local event ([None]: the event does not apply, or the FSM panics).
    Learners never campaign. *)
Definition handle (r : raftFsm) (ev : event) : option raftFsm :=
  match ev with
  | EvCampaign force => if isVoter r (nodeID r) then campaign r force else None
  | EvTick => Some (set_elapsed (S (electionElapsed r)) r)
  | EvHeartbeat =>
      if decide (state r = stateLeader) then Some (bcast ReqMsgHeartBeat r) else None
  | EvPropose =>
      if decide (state r = stateLeader) then Some (bcastAppend r) else None
  | EvAckQuorum =>
      if decide (state r = stateElectionAck) then Some (becomeLeader r) else None
  | EvStepDown =>
      if decide (state r = stateLeader)
      then Some (becomeFollower r (term r) NoLeader) else None
  | EvRestart => Some (restart r)
  end.

(** The cluster: every node's FSM, the network (a message once sent may be
    delivered any number of times, in any order, or never) and a history
    variable [granted] of every [(node, term, vote)] a node has held; no
    transition reads it. *)
Record cluster := mkCluster {
  nodes : nat → raftFsm;
  net : list message;
  granted : list (nat * nat * nat)
}.

Definition record_vote (n : nat) (r : raftFsm) (h : list (nat * nat * nat)) :=
  if decide (vote r = NoLeader) then h else (n, term r, vote r) :: h.

(** After a step of node [n] the runtime ships its outbox to the network. *)
Definition commit (c : cluster) (n : nat) (r : raftFsm) : cluster :=
  mkCluster (λ k, if decide (k = n) then set_msgs [] r else nodes c k)
    (net c ++ msgs r) (record_vote n r (granted c)).

Section Cluster.

(** The group configuration, shared by every node, and its settings. *)
Variable cfg : gmap nat replica.
Variable tick : nat.
Variable lease : bool.

Definition initFsm (n : nat) : raftFsm :=
  mkRaftFsm n tick lease 0 NoLeader NoLeader stateFollower ∅ cfg 0 0 0 [].

Definition initCluster : cluster := mkCluster initFsm [] [].

Inductive cstep (c : cluster) : cluster → Prop :=
  | cstep_event n ev r :
      n ∈ dom cfg →
      handle (nodes c n) ev = Some r →
      cstep c (commit c n r)
  | cstep_deliver n m :
      n ∈ dom cfg →
      m ∈ net c →
      mTo m = n →
      cstep c (commit c n (Step (nodes c n) m)).

Inductive reachable : cluster → Prop :=
  | reachable_init : reachable initCluster
  | reachable_step c c' : reachable c → cstep c c' → reachable c'.

End Cluster.

(* ------------------------------------------------------------------ *)
(** ** part_000: [waitAndValidElect] *)

(** The test helper polls [s.raft.IsLeader(1)] for every server, pass after
    pass.  The answers of these calls, in call order, are the oracle [obs]
    (concurrent nodes may answer differently from one call to the next);
    [early] is the outcome of the lease check
    [end.Sub(start) < (2*elcTick-1)*tickInterval], made once, at the first
    server seen as leader.  [flag] and [ret] are the function's variables. *)
Inductive passOut :=
  | PNil                                   (* return nil *)
  | PStuck                                 (* no more answers observed *)
  | PEnd (flag : bool) (ret : option nat) (obs : list bool).

(** One pass of [for _, s := range ts]. *)
Fixpoint wavPass (ts : list nat) (early flag : bool) (ret : option nat)
    (obs : list bool) : passOut :=
  match ts with
  | [] => PEnd flag ret obs
  | s :: ts' =>
      let first :=
        if flag then Some (flag, false, obs)
        else match obs with
             | [] => None
             | b :: o => if b then Some (true, early, o) else Some (false, false, o)
             end in
      match first with
      | None => PStuck
      | Some (_, true, _) => PNil
      | Some (flag', false, obs1) =>
          match obs1 with
          | [] => PStuck
          | b :: obs2 =>
              if b then
                match ret with
                | Some _ => PNil
                | None => wavPass ts' early flag' (Some s) obs2
                end
              else wavPass ts' early flag' ret obs2
          end
      end
  end.

(** The outer [for] loop, for at most [fuel] passes: [Some None] is the
    [nil] result, [Some (Some s)] the server returned, [None] a loop that
    has not ended within the passes (or answers) given. *)
Fixpoint waitAndValidElect (fuel : nat) (ts : list nat) (early flag : bool)
    (obs : list bool) : option (option nat) :=
  match fuel with
  | 0 => None
  | S f =>
      match wavPass ts early flag None obs with
      | PNil => Some None
      | PStuck => None
      | PEnd _ (Some s) _ => Some (Some s)
      | PEnd flag' None obs' => waitAndValidElect f ts early flag' obs'
      end
  end.

(** The servers that answered [true] to a pass in which each server is
    asked once. *)
Definition leadersSeen (ts : list nat) (ans : list bool) : list nat :=
  map fst (filter (λ p : nat * bool, p.2 = true) (combine ts ans)).

(* ------------------------------------------------------------------ *)
(** ** Election-safety invariant *)

(** A message the node [r] may have queued: it carries [r]'s id and, if it
    grants a vote, [r]'s current term and vote. *)
Definition msg_ok (r : raftFsm) (g : message) : Prop :=
  mFrom g = nodeID r ∧
  (mType g = RespMsgVote → mReject g = false →
     mTerm g = term r ∧ mTo g = vote r ∧ vote r ≠ NoLeader).

(** A message that grants no vote. *)
Definition no_grant (r : raftFsm) (g : message) : Prop :=
  mFrom g = nodeID r ∧ (mType g ≠ RespMsgVote ∨ mReject g = true).

(** Every granted vote of the tally is in the history [h]. *)
Definition votes_in (h : list (nat * nat * nat)) (r : raftFsm) : Prop :=
  ∀ v, votes r !! v = Some true → (v, term r, nodeID r) ∈ h.

(** A Leader or ElectionAck node holds a quorum of votes of its term. *)
Definition elected (h : list (nat * nat * nat)) (r : raftFsm) : Prop :=
  state r = stateLeader ∨ state r = stateElectionAck →
  ∃ Q : gset nat, quorum r ≤ size Q ∧ ∀ v, v ∈ Q → (v, term r, nodeID r) ∈ h.

(** The same after a step, before the history records the node's own
    new vote. *)
Definition votes_ok (h : list (nat * nat * nat)) (r : raftFsm) : Prop :=
  ∀ v, votes r !! v = Some true →
    (v, term r, nodeID r) ∈ h ∨ (v = nodeID r ∧ vote r = nodeID r).

Definition leader_ok (h : list (nat * nat * nat)) (r : raftFsm) : Prop :=
  state r = stateLeader ∨ state r = stateElectionAck →
  ∃ Q : gset nat, quorum r ≤ size Q ∧
    ∀ v, v ∈ Q → (v, term r, nodeID r) ∈ h ∨ (v = nodeID r ∧ vote r = nodeID r).

(** What one step of a node from [r] to [r'] guarantees: terms only grow,
    within a term the vote is only set once, only voters vote, and the
    tally and the leadership of [r'] are backed by the history. *)
Record contract (h : list (nat * nat * nat)) (r r' : raftFsm) : Prop := {
  ct_id : nodeID r' = nodeID r;
  ct_reps : replicas r' = replicas r;
  ct_msgs : ∃ out, msgs r' = msgs r ++ out ∧ Forall (msg_ok r') out;
  ct_term : term r ≤ term r';
  ct_vote : term r' = term r → vote r = NoLeader ∨ vote r' = vote r;
  ct_voter : vote r' = NoLeader ∨ vote r' = vote r ∨ isVoter r (nodeID r) = true;
  ct_votes : votes_ok h r';
  ct_leader : leader_ok h r'
}.

Definition grant_in (h : list (nat * nat * nat)) (m : message) : Prop :=
  mType m = RespMsgVote → mReject m = false → (mFrom m, mTerm m, mTo m) ∈ h.

Section Invariant.

Variable cfg : gmap nat replica.

Record inv (c : cluster) : Prop := {
  inv_wf : ∀ n, nodeID (nodes c n) = n ∧ replicas (nodes c n) = cfg ∧
                msgs (nodes c n) = [];
  inv_hist : ∀ v t x, (v, t, x) ∈ granted c →
    v ∈ voterSet cfg ∧ x ≠ NoLeader ∧ t ≤ term (nodes c v) ∧
    (t = term (nodes c v) → vote (nodes c v) = x);
  inv_func : ∀ v t x y, (v, t, x) ∈ granted c → (v, t, y) ∈ granted c → x = y;
  inv_votes : ∀ n, votes_in (granted c) (nodes c n);
  inv_leader : ∀ n, elected (granted c) (nodes c n);
  inv_learner : ∀ n, n ∉ voterSet cfg → vote (nodes c n) = NoLeader;
  inv_net_from : ∀ m, m ∈ net c → mFrom m ∈ dom cfg;
  inv_net_grant : ∀ m, m ∈ net c → grant_in (granted c) m
}.

End Invariant.

(* ------------------------------------------------------------------ *)
(** ** Concrete configurations used by the examples *)

(** Three voters 1, 2, 3. *)
Definition reps3 : gmap nat replica :=
  <[1 := mkReplica false]> (<[2 := mkReplica false]> (<[3 := mkReplica false]> ∅)).

(** Node 2, Candidate at term 1 having voted for itself. *)
Definition cand2 : raftFsm :=
  mkRaftFsm 2 10 false 1 2 NoLeader stateCandidate {[2 := true]} reps3 5 1 0 [].


(** A single voter 1, as a fresh group. *)
Definition reps1 : gmap nat replica := {[1 := mkReplica false]}.

(** A one-voter group whose node has campaigned once and won. *)
Definition leader1Fsm : raftFsm :=
  default (initFsm reps1 10 false 1) (handle (initFsm reps1 10 false 1) (EvCampaign false)).

Definition leader1 : cluster := commit (initCluster reps1 10 false) 1 leader1Fsm.

(** An election in the three-voter group: node 1 campaigns at term 1,
    node 2 receives its vote request and grants, and node 1 receives the
    grant and becomes leader. *)
Definition elect3_fsm1 : raftFsm :=
  default (initFsm reps3 10 false 1) (handle (initFsm reps3 10 false 1) (EvCampaign false)).

Definition elect3_c1 : cluster := commit (initCluster reps3 10 false) 1 elect3_fsm1.

Definition elect3_req : message := mkMessage ReqMsgVote 1 2 1 0 0 false false.

Definition elect3_c2 : cluster := commit elect3_c1 2 (Step (nodes elect3_c1 2) elect3_req).

Definition elect3_grant : message := mkMessage RespMsgVote 2 1 1 0 0 false false.

Definition elect3_c3 : cluster := commit elect3_c2 1 (Step (nodes elect3_c2 1) elect3_grant).

(* ================================================================== *)
(** * Lemmas *)

(** ** Outbox and tally *)

Definition bcastOut (ty : msgType) (r : raftFsm) : list message :=
  map (λ kv : nat * replica,
         stamp r (set_index_logterm (lastIndex r) (lastTerm r) (newMessage ty kv.1)))
      (filter (λ kv : nat * replica, kv.1 ≠ nodeID r) (map_to_list (replicas r))).

Definition voteReqOut (r : raftFsm) (force : bool) : list message :=
  map (λ kv : nat * replica,
         stamp r (set_force force
           (set_index_logterm (lastIndex r) (lastTerm r) (newMessage ReqMsgVote kv.1))))
      (filter (λ kv : nat * replica, kv.1 ≠ nodeID r ∧ isLearner kv.2 = false)
         (map_to_list (replicas r))).

Definition grantedSet (vs : gmap nat bool) : gset nat :=
  dom (filter (λ kv : nat * bool, kv.2 = true) vs).

Lemma set_msgs_app_nil r : set_msgs (msgs r ++ []) r = r.
Proof. destruct r; unfold set_msgs; simpl; rewrite app_nil_r; reflexivity. Qed.

Lemma set_msgs_twice ms ms' r : set_msgs ms' (set_msgs ms r) = set_msgs ms' r.
Proof. reflexivity. Qed.

Lemma bcast_aux ty (l : list (nat * replica)) r :
  foldl (λ r0 (kv : nat * replica),
           if decide (kv.1 = nodeID r0) then r0
           else send r0 (set_index_logterm (lastIndex r0) (lastTerm r0)
                           (newMessage ty kv.1))) r l =
  set_msgs (msgs r ++ map (λ kv : nat * replica,
         stamp r (set_index_logterm (lastIndex r) (lastTerm r) (newMessage ty kv.1)))
      (filter (λ kv : nat * replica, kv.1 ≠ nodeID r) l)) r.
Proof.
  revert r; induction l as [|kv l IH]; intros r; simpl.
  - symmetry; apply set_msgs_app_nil.
  - rewrite filter_cons. destruct (decide (kv.1 = nodeID r)) as [He|He].
    + rewrite decide_False by tauto. apply IH.
    + rewrite decide_True by done. rewrite IH. unfold send.
      simpl. rewrite <- app_assoc. reflexivity.
Qed.

Lemma bcast_eq ty r : bcast ty r = set_msgs (msgs r ++ bcastOut ty r) r.
Proof. unfold bcast, bcastOut. apply bcast_aux. Qed.

Lemma sendVoteRequests_aux force (l : list (nat * replica)) r :
  foldl (λ r0 (kv : nat * replica),
           if decide (kv.1 = nodeID r0) then r0
           else if isLearner kv.2 then r0
           else send r0 (set_force force
                   (set_index_logterm (lastIndex r0) (lastTerm r0)
                      (newMessage ReqMsgVote kv.1)))) r l =
  set_msgs (msgs r ++ map (λ kv : nat * replica,
         stamp r (set_force force
           (set_index_logterm (lastIndex r) (lastTerm r) (newMessage ReqMsgVote kv.1))))
      (filter (λ kv : nat * replica, kv.1 ≠ nodeID r ∧ isLearner kv.2 = false) l)) r.
Proof.
  revert r; induction l as [|kv l IH]; intros r; simpl.
  - symmetry; apply set_msgs_app_nil.
  - rewrite filter_cons. destruct (decide (kv.1 = nodeID r)) as [He|He].
    + rewrite decide_False by tauto. apply IH.
    + destruct (isLearner kv.2) eqn:Hl.
      * rewrite decide_False by (intros [_ ?]; congruence). apply IH.
      * rewrite decide_True by done. rewrite IH. unfold send. simpl.
        rewrite <- app_assoc. reflexivity.
Qed.

Lemma sendVoteRequests_eq r force :
  sendVoteRequests r force = set_msgs (msgs r ++ voteReqOut r force) r.
Proof. unfold sendVoteRequests, voteReqOut. apply sendVoteRequests_aux. Qed.

Lemma grantedCount_size (vs : gmap nat bool) :
  grantedCount vs = size (grantedSet vs).
Proof.
  unfold grantedCount, grantedSet.
  induction vs as [|i x m Hi IH] using map_ind.
  - rewrite map_fold_empty, map_filter_empty, dom_empty_L, size_empty. done.
  - rewrite map_fold_insert_L; [| |done].
    2:{ intros j1 j2 [] [] y _ _ _; reflexivity. }
    rewrite map_filter_insert. case_decide as Hd; simpl in Hd.
    + subst x. rewrite dom_insert_L.
      rewrite size_union, size_singleton, IH; [done|].
      apply disjoint_singleton_l. rewrite not_elem_of_dom, map_lookup_filter_None.
      left. done.
    + destruct x; [done|]. rewrite delete_id by done. exact IH.
Qed.

Lemma grantedCount_single (n : nat) : grantedCount (<[n := true]> ∅) = 1.
Proof.
  unfold grantedCount. rewrite map_fold_insert_L.
  - rewrite map_fold_empty. reflexivity.
  - intros j1 j2 [] [] y _ _ _; reflexivity.
  - apply lookup_empty.
Qed.

Lemma quorum_frame_msgs ms r : quorum (set_msgs ms r) = quorum r.
Proof. reflexivity. Qed.

(** The first steps of [campaign] once the degrade check said no. *)
Lemma campaign_candidate_path (r : raftFsm) (force : bool) :
  isNeedBecomeFollower r = Some false →
  state r ≠ stateLeader →
  let r2 := set_votes {[nodeID r := true]}
              (set_state stateCandidate (set_vote (nodeID r) (reset r (S (term r))))) in
  campaign r force =
    Some (if decide (quorum r = 1)
          then (if leaseCheck r then becomeElectionAck r2 else becomeLeader r2)
          else sendVoteRequests r2 force).
Proof.
  intros Hn Hl r2. unfold campaign. rewrite Hn. unfold becomeCandidate.
  rewrite decide_False by done. unfold poll. simpl. rewrite lookup_empty.
  unfold set_votes at 1. simpl. rewrite grantedCount_single.
  unfold r2. rewrite insert_empty. unfold quorum; simpl.
  destruct (decide _); reflexivity.
Qed.

Lemma campaign_leader_panics (r : raftFsm) (force : bool) :
  isNeedBecomeFollower r = Some false → state r = stateLeader →
  campaign r force = None.
Proof.
  intros Hn Hl. unfold campaign. rewrite Hn. unfold becomeCandidate.
  rewrite decide_True by done. reflexivity.
Qed.

Lemma becomeElectionAck_fields (r : raftFsm) :
  term (becomeElectionAck r) = term r ∧ vote (becomeElectionAck r) = vote r ∧
  state (becomeElectionAck r) = stateElectionAck ∧
  nodeID (becomeElectionAck r) = nodeID r ∧
  replicas (becomeElectionAck r) = replicas r ∧
  votes (becomeElectionAck r) = ∅.
Proof.
  unfold becomeElectionAck. rewrite bcast_eq. simpl.
  rewrite decide_True by done. repeat split.
Qed.

Lemma becomeLeader_fields (r : raftFsm) :
  term (becomeLeader r) = term r ∧ vote (becomeLeader r) = vote r ∧
  state (becomeLeader r) = stateLeader ∧
  nodeID (becomeLeader r) = nodeID r ∧
  replicas (becomeLeader r) = replicas r ∧
  votes (becomeLeader r) = ∅.
Proof.
  unfold becomeLeader. simpl. rewrite decide_True by done. repeat split.
Qed.

Lemma bcastAppend_fields (r : raftFsm) :
  term (bcastAppend r) = term r ∧ vote (bcastAppend r) = vote r ∧
  state (bcastAppend r) = state r ∧ leader (bcastAppend r) = leader r ∧
  nodeID (bcastAppend r) = nodeID r ∧ replicas (bcastAppend r) = replicas r ∧
  votes (bcastAppend r) = votes r.
Proof. unfold bcastAppend. rewrite bcast_eq. repeat split. Qed.

Lemma campaign_candidate_fields (r : raftFsm) (force : bool) (r' : raftFsm) :
  isNeedBecomeFollower r = Some false →
  campaign r force = Some r' →
  term r' = S (term r) ∧ vote r' = nodeID r ∧
  state r' = (if decide (quorum r = 1)
              then (if leaseCheck r then stateElectionAck else stateLeader)
              else stateCandidate).
Proof.
  intros Hn Hc. destruct (decide (state r = stateLeader)) as [Hl|Hl].
  { rewrite campaign_leader_panics in Hc by done. discriminate. }
  rewrite campaign_candidate_path in Hc by done. injection Hc as <-.
  destruct (decide (quorum r = 1)); [destruct (leaseCheck r)|].
  - destruct (becomeElectionAck_fields
      (set_votes {[nodeID r := true]}
         (set_state stateCandidate (set_vote (nodeID r) (reset r (S (term r)))))))
      as (-> & -> & -> & _). done.
  - destruct (becomeLeader_fields
      (set_votes {[nodeID r := true]}
         (set_state stateCandidate (set_vote (nodeID r) (reset r (S (term r)))))))
      as (-> & -> & -> & _). done.
  - rewrite sendVoteRequests_eq. done.
Qed.

(* ================================================================== *)
(** * Claims about single FSM functions *)

(** C3 (amended).  When [campaign] does not take the degrade path of
    [isNeedBecomeFollower] (and the node is not a leader, on which it
    panics), the term grows by exactly one and the vote is the node's own
    id; the role is Candidate, or at once Leader / ElectionAck when the
    node's own vote is already a quorum.  When the degrade check fires, the
    node becomes a Follower with no leader and keeps its term and vote. *)
Theorem campaign_increments_term_votes_self (r : raftFsm) (force : bool) (r' : raftFsm) :
  campaign r force = Some r' →
  match isNeedBecomeFollower r with
  | Some false =>
      term r' = S (term r) ∧ vote r' = nodeID r ∧
      state r' = (if decide (quorum r = 1)
                  then (if leaseCheck r then stateElectionAck else stateLeader)
                  else stateCandidate)
  | _ =>
      state r' = stateFollower ∧ leader r' = NoLeader ∧
      term r' = term r ∧ vote r' = vote r
  end.
Proof.
  intros Hc. destruct (isNeedBecomeFollower r) as [[|]|] eqn:Hn.
  - unfold campaign in Hc. rewrite Hn in Hc. injection Hc as <-.
    unfold becomeFollower. simpl. rewrite decide_True by done. done.
  - exact (campaign_candidate_fields r force r' Hn Hc).
  - unfold campaign in Hc. rewrite Hn in Hc. discriminate.
Qed.

Lemma campaign_increments_term_votes_self_witness :
  (∃ r', campaign (set_state stateFollower cand2) false = Some r' ∧
     term r' = S (term cand2) ∧ vote r' = nodeID cand2 ∧ state r' = stateCandidate) ∧
  (∃ r', campaign cand2 false = Some r' ∧
     state r' = stateFollower ∧ leader r' = NoLeader ∧
     term r' = term cand2 ∧ vote r' = vote cand2).
Proof.
  split.
  - assert (Hc : campaign (set_state stateFollower cand2) false =
      Some (sendVoteRequests (set_votes {[2 := true]} (set_state stateCandidate
              (set_vote 2 (reset (set_state stateFollower cand2) 2)))) false))
      by (vm_compute; reflexivity).
    pose proof (campaign_increments_term_votes_self _ _ _ Hc) as T.
    assert (Hn : isNeedBecomeFollower (set_state stateFollower cand2) = Some false)
      by reflexivity.
    assert (Hq : quorum (set_state stateFollower cand2) = 2) by (vm_compute; reflexivity).
    rewrite Hn, Hq in T. eexists. split; [exact Hc|]. exact T.
  - assert (Hc : campaign cand2 false = Some (becomeFollower cand2 1 NoLeader))
      by (vm_compute; reflexivity).
    pose proof (campaign_increments_term_votes_self _ _ _ Hc) as T.
    assert (Hn : isNeedBecomeFollower cand2 = Some true) by (vm_compute; reflexivity).
    rewrite Hn in T. eexists. split; [exact Hc|]. exact T.
Defined.

(** C3 counterexample: node 2, a Candidate at term 1 of replicas [1;2;3],
    sits at position [1 mod 3]; [campaign] makes it a Follower and leaves
    its term at 1 instead of incrementing it. *)
Lemma campaign_degrade_keeps_term_cex :
  ∃ r', campaign cand2 false = Some r' ∧ term r' = term cand2 ∧
        state r' = stateFollower.
Proof. eexists; split; [vm_compute; reflexivity|]. split; reflexivity. Qed.

Lemma voteReq_stamp (r : raftFsm) (force : bool) (id : nat) :
  stamp r (set_force force (set_index_logterm (lastIndex r) (lastTerm r)
                              (newMessage ReqMsgVote id))) =
  mkMessage ReqMsgVote (nodeID r) id (term r) (lastTerm r) (lastIndex r) false force.
Proof. reflexivity. Qed.

Lemma NoDup_map_key {B : Type} (f : nat * B → message) (P : nat * B → Prop)
    `{∀ kv, Decision (P kv)} (l : list (nat * B)) :
  (∀ kv, mTo (f kv) = kv.1) → NoDup l.*1 → NoDup (map f (filter P l)).
Proof.
  intros Hf. induction l as [|x l IH]; intros Hnd; [constructor|].
  simpl in Hnd. apply NoDup_cons in Hnd as [Hx Hnd].
  rewrite filter_cons. case_decide; [|exact (IH Hnd)].
  simpl. apply NoDup_cons_2; [|exact (IH Hnd)].
  rewrite list_elem_of_In, in_map_iff. intros (y & Hxy & Hy).
  apply Hx. rewrite <- list_elem_of_In, list_elem_of_filter in Hy.
  destruct Hy as [_ Hy]. apply list_elem_of_fmap. exists y. split; [|exact Hy].
  rewrite <- (Hf x), <- (Hf y), Hxy. reflexivity.
Qed.

Lemma voteReqOut_NoDup (r : raftFsm) (force : bool) : NoDup (voteReqOut r force).
Proof.
  apply NoDup_map_key; [reflexivity|]. apply NoDup_fst_map_to_list.
Qed.

(** C5 (amended).  When [campaign] neither takes the degrade path nor wins
    at once by its own vote, the messages it adds to the outbox are exactly
    one [ReqMsgVote] per non-learner replica other than the node (no
    message twice), carrying the new term and the node's last log index and
    term; no learner gets one.  On the degrade path the outbox is left as
    it was. *)
Theorem campaign_sends_vote_requests (r : raftFsm) (force : bool) (r' : raftFsm) :
  (isNeedBecomeFollower r = Some false →
   quorum r ≠ 1 →
   campaign r force = Some r' →
   ∃ out, msgs r' = msgs r ++ out ∧ NoDup out ∧
     ∀ g, g ∈ out ↔
       ∃ id rp, replicas r !! id = Some rp ∧ id ≠ nodeID r ∧ isLearner rp = false ∧
         g = mkMessage ReqMsgVote (nodeID r) id (S (term r)) (lastTerm r) (lastIndex r)
               false force) ∧
  (isNeedBecomeFollower r = Some true →
   campaign r force = Some r' →
   msgs r' = msgs r).
Proof.
  split.
  - intros Hn Hq Hc. destruct (decide (state r = stateLeader)) as [Hl|Hl].
    { rewrite campaign_leader_panics in Hc by done. discriminate. }
    rewrite campaign_candidate_path in Hc by done.
    rewrite decide_False in Hc by done. injection Hc as <-.
    rewrite sendVoteRequests_eq.
    eexists; split; [reflexivity|]. split; [apply voteReqOut_NoDup|].
    intros g. unfold voteReqOut.
    rewrite list_elem_of_In, in_map_iff. split.
    + intros [[id rp] [<- Hin]]. rewrite <- list_elem_of_In, list_elem_of_filter in Hin.
      destruct Hin as [[Hne Hlr] Hkv]. rewrite elem_of_map_to_list in Hkv.
      exists id, rp. simpl in *. repeat split; done.
    + intros (id & rp & Hkv & Hne & Hlr & ->). exists (id, rp). split; [reflexivity|].
      rewrite <- list_elem_of_In, list_elem_of_filter. simpl.
      split; [done|]. by rewrite elem_of_map_to_list.
  - intros Hn Hc. unfold campaign in Hc. rewrite Hn in Hc. injection Hc as <-.
    reflexivity.
Qed.

Lemma campaign_sends_vote_requests_witness :
  (∃ out, msgs (sendVoteRequests (set_votes {[2 := true]} (set_state stateCandidate
            (set_vote 2 (reset (set_state stateFollower cand2) 2)))) false) =
         msgs (set_state stateFollower cand2) ++ out ∧ NoDup out ∧
    ∀ g, g ∈ out ↔
      ∃ id rp, replicas cand2 !! id = Some rp ∧ id ≠ 2 ∧ isLearner rp = false ∧
        g = mkMessage ReqMsgVote 2 id 2 1 5 false false) ∧
  msgs (becomeFollower cand2 1 NoLeader) = msgs cand2.
Proof.
  split.
  - apply (proj1 (campaign_sends_vote_requests (set_state stateFollower cand2) false _));
      [vm_compute; reflexivity | vm_compute; lia | vm_compute; reflexivity].
  - apply (proj2 (campaign_sends_vote_requests cand2 false _));
      vm_compute; reflexivity.
Defined.

(** C5 counterexample: node 2, a Candidate at term 1 with voters [1;2;3],
    does not win by its own vote (quorum 2), yet [campaign] sends no vote
    request at all: it takes the degrade path and becomes a Follower. *)
Lemma campaign_degrade_sends_nothing_cex :
  quorum cand2 = 2 ∧
  ∃ r', campaign cand2 false = Some r' ∧ msgs r' = [] ∧
        reps3 !! 1 = Some (mkReplica false) ∧ reps3 !! 3 = Some (mkReplica false).
Proof.
  split; [vm_compute; reflexivity|].
  eexists; split; [vm_compute; reflexivity|]. vm_compute. auto.
Qed.

(** C7.  [becomeCandidate] panics exactly on a Leader; on every other
    state it completes and the state becomes Candidate. *)
Theorem becomeCandidate_panics_only_on_leader (r : raftFsm) :
  match becomeCandidate r with
  | None => state r = stateLeader
  | Some r' => state r ≠ stateLeader ∧ state r' = stateCandidate
  end.
Proof.
  unfold becomeCandidate. case_decide as Hl; [done|]. split; [done|reflexivity].
Qed.





(** C9.  Only the first response of a peer is recorded: once [id] is in
    the tally, [poll id v'] changes nothing and returns the current granted
    count, whatever [v'] is. *)
Theorem poll_first_response_wins (r : raftFsm) (id : nat) (b v' : bool) :
  votes r !! id = Some b →
  poll r id v' = (r, grantedCount (votes r)).
Proof. intros Hb. unfold poll. rewrite Hb. reflexivity. Qed.

Lemma poll_first_response_wins_witness :
  votes cand2 !! 2 = Some true ∧ poll cand2 2 false = (cand2, grantedCount (votes cand2)).
Proof.
  split; [vm_compute; reflexivity|].
  apply (poll_first_response_wins cand2 2 true false). vm_compute. reflexivity.
Defined.

(** C4.  A node grants a vote only if it has not voted in the term or has
    voted for the requester ([handleVote]: every answer is a single
    [RespMsgVote] to the requester, and a grant needs [vote = NoLeader] or
    [vote = From]).  A Candidate's step answers a [ReqMsgVote] with a
    [RespMsgVote] to the requester whose [Reject] flag is set exactly when
    the requester differs from the recorded vote.  This is stated for the
    requests the code can produce: the Candidate's vote is its own id
    ([becomeCandidate]) and no vote request comes from the node itself
    ([campaign] skips [id == NodeID]). *)
Theorem stepCandidate_rejects_vote_requests (r : raftFsm) (m : message) :
  (∀ r0 m0, ∃ g, msgs (handleVote r0 m0) = msgs r0 ++ [g] ∧
     mType g = RespMsgVote ∧ mTo g = mFrom m0 ∧
     (mReject g = false → vote r0 = NoLeader ∨ vote r0 = mFrom m0)) ∧
  (mType m = ReqMsgVote → vote r = nodeID r → mFrom m ≠ nodeID r →
   stepCandidate r m =
     set_msgs (msgs r ++ [mkMessage RespMsgVote (nodeID r) (mFrom m) (term r) 0 0
                            (bool_decide (mFrom m ≠ vote r)) false]) r).
Proof.
  split.
  - intros r0 m0. unfold handleVote.
    destruct (isVoter r0 (nodeID r0) && _ && _ && _) eqn:Hb.
    + eexists. split; [reflexivity|]. split; [reflexivity|]. split; [reflexivity|].
      intros _. apply andb_true_iff in Hb as [Hb _]. apply andb_true_iff in Hb as [Hb _].
      apply andb_true_iff in Hb as [_ Hb]. apply orb_true_iff in Hb as [Hb|Hb];
        apply bool_decide_eq_true_1 in Hb; [left|right]; exact Hb.
    + eexists. split; [reflexivity|]. split; [reflexivity|]. split; [reflexivity|].
      intros H. discriminate.
  - intros Hm Hv Hf. unfold stepCandidate. rewrite Hm.
    rewrite bool_decide_eq_true_2 by congruence. reflexivity.
Qed.

Lemma stepCandidate_rejects_vote_requests_witness :
  mType (mkMessage ReqMsgVote 1 2 1 1 5 false false) = ReqMsgVote ∧
  vote cand2 = nodeID cand2 ∧ 1 ≠ nodeID cand2 ∧
  stepCandidate cand2 (mkMessage ReqMsgVote 1 2 1 1 5 false false) =
    set_msgs (msgs cand2 ++ [mkMessage RespMsgVote 2 1 1 0 0 true false]) cand2.
Proof.
  assert (H1 : mType (mkMessage ReqMsgVote 1 2 1 1 5 false false) = ReqMsgVote)
    by reflexivity.
  assert (H2 : vote cand2 = nodeID cand2) by reflexivity.
  assert (H3 : mFrom (mkMessage ReqMsgVote 1 2 1 1 5 false false) ≠ nodeID cand2)
    by (simpl; lia).
  split; [exact H1|]. split; [exact H2|]. split; [exact H3|].
  exact (proj2 (stepCandidate_rejects_vote_requests cand2
                  (mkMessage ReqMsgVote 1 2 1 1 5 false false)) H1 H2 H3).
Defined.

(** C6 (amended).  A proposal stepped at a Candidate is dropped:
    [stepCandidate] returns the FSM unchanged, with no message queued (no
    redirect and no [NotLeader] reply comes from the FSM step). *)
Theorem stepCandidate_drops_proposal (r : raftFsm) (m : message) :
  mType m = LocalMsgProp → stepCandidate r m = r.
Proof. intros Hm. unfold stepCandidate. rewrite Hm. reflexivity. Qed.

Lemma stepCandidate_drops_proposal_witness :
  mType (newMessage LocalMsgProp 0) = LocalMsgProp ∧
  stepCandidate cand2 (newMessage LocalMsgProp 0) = cand2.
Proof.
  split; [reflexivity|]. apply stepCandidate_drops_proposal. reflexivity.
Defined.

(** C6 counterexample: a proposal stepped at the Candidate [cand2] leaves
    it as it was, with an empty outbox: neither redirected nor answered. *)
Lemma stepCandidate_proposal_silent_cex :
  stepCandidate cand2 (newMessage LocalMsgProp 0) = cand2 ∧ msgs cand2 = [].
Proof. split; reflexivity. Qed.

(** C10 (code bug).  With [concurrency = 4] (a power of two) the
    optimized branch computes [(1 & 4) - 1], i.e. [int(2^64 - 1) = -1], an
    index outside [0, 4), where the modulo branch gives [1]; for [ID = 4]
    it gives [3] instead of [0]. *)
Theorem transport_send_index_precedence :
  sendIdx 1 4 = (-1)%Z ∧ sendIdxMod 1 4 = 1%Z ∧
  sendIdx 4 4 = 3%Z ∧ sendIdxMod 4 4 = 0%Z.
Proof. vm_compute. repeat split. Qed.

Lemma quorum_double (r : raftFsm) : size (voterSet (replicas r)) < 2 * quorum r.
Proof.
  unfold quorum. pose proof (Nat.div_mod_eq (size (voterSet (replicas r))) 2).
  pose proof (Nat.mod_upper_bound (size (voterSet (replicas r))) 2). lia.
Qed.

Lemma poll_fields (r : raftFsm) (id : nat) (v : bool) :
  let r1 := (poll r id v).1 in
  (poll r id v).2 = grantedCount (votes r1) ∧
  term r1 = term r ∧ vote r1 = vote r ∧ state r1 = state r ∧ leader r1 = leader r ∧
  nodeID r1 = nodeID r ∧ replicas r1 = replicas r ∧ leaseCheck r1 = leaseCheck r ∧
  msgs r1 = msgs r ∧
  votes r1 = match votes r !! id with Some _ => votes r | None => <[id := v]> (votes r) end.
Proof. unfold poll. destruct (votes r !! id); repeat split. Qed.

(** C2.  On a [RespMsgVote] (votes recorded so far and the responder
    being voters): if the granted count after the tally equals the quorum
    the node becomes Leader, or ElectionAck under lease-check; if the
    number of rejections equals the quorum it becomes a Follower with no
    leader known; its term is kept in both cases. *)
Theorem stepCandidate_vote_tally (r : raftFsm) (m : message) :
  mType m = RespMsgVote →
  dom (votes r) ⊆ voterSet (replicas r) →
  mFrom m ∈ voterSet (replicas r) →
  let r1 := (poll r (mFrom m) (negb (mReject m))).1 in
  let gr := grantedCount (votes r1) in
  (gr = quorum r →
     state (stepCandidate r m) =
       (if leaseCheck r then stateElectionAck else stateLeader) ∧
     term (stepCandidate r m) = term r) ∧
  (size (votes r1) - gr = quorum r →
     state (stepCandidate r m) = stateFollower ∧
     leader (stepCandidate r m) = NoLeader ∧ term (stepCandidate r m) = term r).
Proof.
  intros Hm Hdom Hfrom r1 gr.
  destruct (poll_fields r (mFrom m) (negb (mReject m)))
    as (Hgr & Ht & _ & _ & _ & _ & Hreps & Hlc & _ & Hvs).
  fold r1 in Hgr, Ht, Hreps, Hlc, Hvs.
  assert (Hq : quorum r1 = quorum r) by (unfold quorum; by rewrite Hreps).
  assert (Hsize : size (votes r1) ≤ size (voterSet (replicas r))).
  { rewrite <- size_dom. apply subseteq_size. rewrite Hvs.
    destruct (votes r !! mFrom m); [done|]. rewrite dom_insert_L. set_solver. }
  pose proof (quorum_double r) as Hdbl.
  assert (Hstep : stepCandidate r m =
     if decide (quorum r1 = gr) then
        if leaseCheck r1 then becomeElectionAck r1 else bcastAppend (becomeLeader r1)
      else if decide (quorum r1 = size (votes r1) - gr) then
        becomeFollower r1 (term r1) NoLeader
      else r1).
  { unfold stepCandidate. rewrite Hm. unfold gr, r1, poll.
    destruct (votes r !! mFrom m); reflexivity. }
  rewrite Hstep, Hq, Hlc. split.
  - intros Hg. rewrite decide_True by done. destruct (leaseCheck r).
    + destruct (becomeElectionAck_fields r1) as (-> & _ & -> & _). done.
    + destruct (bcastAppend_fields (becomeLeader r1)) as (-> & _ & -> & _).
      destruct (becomeLeader_fields r1) as (-> & _ & -> & _). done.
  - intros Hrej. rewrite decide_False by lia. rewrite decide_True by done.
    unfold becomeFollower. simpl. split; [done|]. split; [done|]. by rewrite Ht.
Qed.

Lemma stepCandidate_vote_tally_witness :
  dom (votes cand2) ⊆ voterSet (replicas cand2) ∧
  1 ∈ voterSet (replicas cand2) ∧
  state (stepCandidate cand2 (mkMessage RespMsgVote 1 2 1 0 0 false false)) = stateLeader ∧
  term (stepCandidate cand2 (mkMessage RespMsgVote 1 2 1 0 0 false false)) = term cand2.
Proof.
  assert (Hd : dom (votes cand2) ⊆ voterSet (replicas cand2))
    by (apply (@bool_decide_unpack _ (gset_subseteq_dec _ _)); vm_compute; exact I).
  assert (Hf : 1 ∈ voterSet (replicas cand2))
    by (apply (@bool_decide_unpack _ (gset_elem_of_dec _ _)); vm_compute; exact I).
  split; [exact Hd|]. split; [exact Hf|].
  apply (stepCandidate_vote_tally cand2 (mkMessage RespMsgVote 1 2 1 0 0 false false));
    [reflexivity | exact Hd | exact Hf | vm_compute; reflexivity].
Defined.

(* ================================================================== *)
(** * Election safety *)

(** ** One step of one node *)

Lemma no_grant_msg_ok r r' g : nodeID r' = nodeID r → no_grant r g → msg_ok r' g.
Proof. intros Hid [Hf Hg]. split; [congruence|]. intros Ht Hr. destruct Hg; congruence. Qed.

Lemma quorum_same r r' : replicas r' = replicas r → quorum r' = quorum r.
Proof. intros H. unfold quorum. by rewrite H. Qed.

Lemma votes_ok_empty h r : votes r = ∅ → votes_ok h r.
Proof. intros Hv v. rewrite Hv, lookup_empty. discriminate. Qed.

Lemma votes_ok_same h r r' :
  votes_in h r → votes r' = votes r → term r' = term r → nodeID r' = nodeID r →
  votes_ok h r'.
Proof. intros Hin Hv Ht Hid v Hs. left. rewrite Ht, Hid. apply Hin. by rewrite <- Hv. Qed.

Lemma leader_ok_follower h r :
  state r = stateFollower ∨ state r = stateCandidate → leader_ok h r.
Proof. intros Hs [Hl|Hl]; destruct Hs as [Hs|Hs]; congruence. Qed.

Lemma leader_ok_same h r r' :
  elected h r → state r' = state r → term r' = term r → nodeID r' = nodeID r →
  replicas r' = replicas r → leader_ok h r'.
Proof.
  intros Hel Hs Ht Hid Hreps Hst. rewrite Hs in Hst.
  destruct (Hel Hst) as (Q & HQ & HQv). exists Q.
  rewrite (quorum_same r r' Hreps), Ht, Hid. split; [done|].
  intros v Hv. left. by apply HQv.
Qed.

Lemma contract_intro h r r' out :
  nodeID r' = nodeID r → replicas r' = replicas r →
  msgs r' = msgs r ++ out → Forall (no_grant r) out →
  (term r' = term r ∧ vote r' = vote r ∨
   term r < term r' ∧ (vote r' = NoLeader ∨ isVoter r (nodeID r) = true)) →
  votes_ok h r' → leader_ok h r' → contract h r r'.
Proof.
  intros Hid Hreps Hm Hout Htv Hvo Hlo. constructor; try done.
  - exists out. split; [done|]. eapply Forall_impl; [exact Hout|].
    intros g. by apply no_grant_msg_ok.
  - destruct Htv as [[-> _]|[? _]]; lia.
  - intros Ht. destruct Htv as [[_ ->]|[? _]]; [right; done|lia].
  - destruct Htv as [[_ ->]|[_ [ -> | -> ]]]; auto.
Qed.

Lemma contract_frame h r r' out :
  nodeID r' = nodeID r → replicas r' = replicas r → term r' = term r →
  vote r' = vote r → state r' = state r → votes r' = votes r →
  msgs r' = msgs r ++ out → Forall (no_grant r) out →
  votes_in h r → elected h r → contract h r r'.
Proof.
  intros Hid Hreps Ht Hv Hs Hvs Hm Hout Hin Hel.
  apply (contract_intro h r r' out); auto.
  - eapply votes_ok_same; eauto.
  - eapply leader_ok_same; eauto.
Qed.

Lemma contract_refl h r : votes_in h r → elected h r → contract h r r.
Proof. intros. apply (contract_frame h r r []); auto. by rewrite app_nil_r. Qed.

Lemma contract_trans h r r1 r2 :
  msgs r1 = msgs r → contract h r r1 → contract h r1 r2 → contract h r r2.
Proof.
  intros Hm [Hid1 Hreps1 _ Ht1 Hv1 Hvt1 _ _] [Hid2 Hreps2 Hm2 Ht2 Hv2 Hvt2 Hvs2 Hl2].
  assert (Hvoter : isVoter r1 (nodeID r1) = isVoter r (nodeID r))
    by (unfold isVoter; rewrite Hid1, Hreps1; reflexivity).
  constructor; try done.
  - congruence.
  - congruence.
  - destruct Hm2 as (out & Hout & Hok). exists out. by rewrite Hout, Hm.
  - lia.
  - intros Ht. destruct (Hv1 ltac:(lia)) as [?|?]; [left; done|].
    destruct (Hv2 ltac:(lia)) as [?|?]; [left|right]; congruence.
  - destruct Hvt2 as [?|[?|?]]; [left; done| |right; right; congruence].
    destruct Hvt1 as [?|[?|?]]; [left|right; left|right; right]; congruence.
Qed.

Lemma stamp_no_grant r r' g :
  nodeID r' = nodeID r → mType g ≠ RespMsgVote ∨ mReject g = true →
  no_grant r (stamp r' g).
Proof. intros Hid Hg. unfold no_grant, stamp. simpl. split; [done | exact Hg]. Qed.

Lemma bcastOut_no_grant ty r r' :
  nodeID r' = nodeID r → ty ≠ RespMsgVote → Forall (no_grant r) (bcastOut ty r').
Proof.
  intros Hid Hty. unfold bcastOut. apply Forall_forall. intros g Hg.
  apply list_elem_of_In, in_map_iff in Hg as (kv & <- & _).
  apply stamp_no_grant; [done|]. left. done.
Qed.

Lemma voteReqOut_no_grant r r' force :
  nodeID r' = nodeID r → Forall (no_grant r) (voteReqOut r' force).
Proof.
  intros Hid. unfold voteReqOut. apply Forall_forall. intros g Hg.
  apply list_elem_of_In, in_map_iff in Hg as (kv & <- & _).
  apply stamp_no_grant; [done|]. left. discriminate.
Qed.

Ltac out_ok :=
  repeat first
    [ refine (List.Forall_nil _)
    | refine (List.Forall_cons _ _ _ _ _);
        [ apply stamp_no_grant;
            [ reflexivity | first [ left; simpl; discriminate | right; reflexivity ] ] | ]
    | apply bcastOut_no_grant; [ reflexivity | discriminate ] ].

Ltac frame :=
  match goal with |- contract ?h ?r ?r' => eapply (contract_frame h r r') end;
  [ reflexivity | reflexivity | reflexivity | reflexivity | reflexivity | reflexivity
  | first [ reflexivity | symmetry; apply app_nil_r ]
  | out_ok | assumption | assumption ].

Lemma contract_handleVote h r m :
  votes_in h r → elected h r → mFrom m ≠ NoLeader → contract h r (handleVote r m).
Proof.
  intros Hin Hel Hf. unfold handleVote. cbv zeta.
  match goal with |- context [if ?b then _ else _] => destruct b eqn:Hc end;
    [|frame].
  apply andb_prop in Hc as [Hc _]. apply andb_prop in Hc as [Hc _].
  apply andb_prop in Hc as [Hvoter Hcan].
  constructor; try reflexivity.
  - eexists. split; [reflexivity|]. refine (List.Forall_cons _ _ _ _ (List.Forall_nil _)).
    split; [reflexivity|]. intros _ _. unfold stamp. simpl.
    try (case_decide as Hd; [discriminate Hd|]). done.
  - intros _. simpl. apply orb_prop in Hcan as [Hcan|Hcan];
      apply bool_decide_eq_true in Hcan; [left|right]; done.
  - right. right. exact Hvoter.
  - apply (votes_ok_same h r); [done|reflexivity..].
  - apply (leader_ok_same h r); [done|reflexivity..].
Qed.

Lemma contract_stepFollower h r m :
  votes_in h r → elected h r → mFrom m ≠ NoLeader → contract h r (stepFollower r m).
Proof.
  intros Hin Hel Hf. unfold stepFollower.
  destruct (mType m) eqn:Ht; try frame.
  - destruct (decide (leader r = NoLeader)); frame.
  - by apply contract_handleVote.
Qed.

Lemma contract_stepLeader h r m :
  votes_in h r → elected h r → mFrom m ≠ NoLeader →
  contract h r (stepLeader r m) ∧ contract h r (stepElectionAck r m).
Proof.
  intros Hin Hel Hf. unfold stepLeader, stepElectionAck.
  destruct (mType m); (split; [|]); try (by apply contract_handleVote);
    by apply contract_refl.
Qed.

Lemma becomeFollower_fields r t lead :
  nodeID (becomeFollower r t lead) = nodeID r ∧
  replicas (becomeFollower r t lead) = replicas r ∧
  msgs (becomeFollower r t lead) = msgs r ∧
  term (becomeFollower r t lead) = t ∧
  vote (becomeFollower r t lead) = (if decide (term r = t) then vote r else NoLeader) ∧
  state (becomeFollower r t lead) = stateFollower ∧
  votes (becomeFollower r t lead) = ∅.
Proof. repeat split. Qed.

Lemma becomeFollower_inv h r t lead :
  votes_in h (becomeFollower r t lead) ∧ elected h (becomeFollower r t lead).
Proof.
  split.
  - intros v. simpl. rewrite lookup_empty. discriminate.
  - intros [Hs|Hs]; discriminate.
Qed.

Lemma contract_becomeFollower h r t lead :
  term r ≤ t → contract h r (becomeFollower r t lead).
Proof.
  intros Ht. destruct (becomeFollower_fields r t lead) as (Hid & Hreps & Hm & Ht' & Hv & Hs & Hvs).
  apply (contract_intro h r _ []).
  - exact Hid.
  - exact Hreps.
  - by rewrite Hm, app_nil_r.
  - constructor.
  - rewrite Ht', Hv. destruct (decide (term r = t)); [left|right]; auto with lia.
  - by apply votes_ok_empty.
  - apply leader_ok_follower. by left.
Qed.

Lemma votes_in_poll h r m :
  votes_in h r → mTerm m = term r → mTo m = nodeID r → grant_in h m →
  mType m = RespMsgVote →
  votes_in h (poll r (mFrom m) (negb (mReject m))).1.
Proof.
  intros Hin Htm Hto Hg Hty v.
  destruct (poll_fields r (mFrom m) (negb (mReject m)))
    as (_ & Ht & _ & _ & _ & Hid & _ & _ & _ & Hvs).
  rewrite Hvs, Ht, Hid.
  destruct (votes r !! mFrom m) eqn:E; [apply Hin|].
  destruct (decide (v = mFrom m)) as [->|Hne].
  - rewrite lookup_insert_eq. intros Hb. injection Hb as Hb.
    apply negb_true_iff in Hb. rewrite <- Htm, <- Hto. by apply Hg.
  - rewrite lookup_insert_ne by done. apply Hin.
Qed.

(** A node that wins its election: the granted votes of its tally are a
    quorum backed by the history. *)
Lemma contract_win h r1 r' out :
  votes_in h r1 → quorum r1 = grantedCount (votes r1) →
  nodeID r' = nodeID r1 → replicas r' = replicas r1 → term r' = term r1 →
  vote r' = vote r1 → votes r' = ∅ → msgs r' = msgs r1 ++ out →
  Forall (no_grant r1) out → contract h r1 r'.
Proof.
  intros Hin Hq Hid Hreps Ht Hv Hvs Hm Hout.
  apply (contract_intro h r1 r' out); [done|done|done|done|left; done| |].
  - by apply votes_ok_empty.
  - intros _. exists (grantedSet (votes r1)).
    rewrite (quorum_same r1 r' Hreps), Hq, grantedCount_size.
    split; [done|]. intros v Hv'. left. rewrite Ht, Hid. apply Hin.
    unfold grantedSet in Hv'. apply elem_of_dom in Hv' as [b Hb].
    apply map_lookup_filter_Some in Hb as [Hb Hb2]. simpl in Hb2. by subst.
Qed.

Lemma contract_stepCandidate h r m :
  state r = stateCandidate → votes_in h r → elected h r → mFrom m ≠ NoLeader →
  mTo m = nodeID r → grant_in h m → (mType m = RespMsgVote → mTerm m = term r) →
  contract h r (stepCandidate r m).
Proof.
  intros Hs Hin Hel Hf Hto Hg Htm. unfold stepCandidate.
  destruct (mType m) eqn:Hty; try (by apply contract_refl).
  - apply (contract_trans h r (becomeFollower r (term r) (mFrom m)));
      [reflexivity | apply contract_becomeFollower; lia |].
    destruct (becomeFollower_inv h r (term r) (mFrom m)) as [Hin' Hel'].
    unfold handleAppendEntries. frame.
  - apply contract_becomeFollower; lia.
  - apply (contract_trans h r (becomeFollower r (term r) (mFrom m)));
      [reflexivity | apply contract_becomeFollower; lia |].
    destruct (becomeFollower_inv h r (term r) (mFrom m)) as [Hin' Hel'].
    frame.
  - frame.
  - specialize (Htm eq_refl).
    pose proof (votes_in_poll h r m Hin Htm Hto Hg Hty) as Hin1.
    destruct (poll_fields r (mFrom m) (negb (mReject m)))
      as (Hgr & Ht1 & Hv1 & Hs1 & _ & Hid1 & Hreps1 & _ & Hm1 & _).
    destruct (poll r (mFrom m) (negb (mReject m))) as [r1 gr] eqn:Ep.
    simpl in Hin1, Hgr, Ht1, Hv1, Hs1, Hid1, Hreps1, Hm1.
    assert (Hel1 : elected h r1) by (intros [H|H]; congruence).
    apply (contract_trans h r r1); [exact Hm1| |].
    { apply (contract_intro h r r1 []); [done|done|by rewrite Hm1, app_nil_r
        |constructor|left; done| |].
      - intros v Hv. left. by apply Hin1.
      - apply leader_ok_follower. right. congruence. }
    destruct (decide (quorum r1 = gr)) as [Hq|Hq];
      [destruct (leaseCheck r1)|destruct (decide _)].
    + destruct (becomeElectionAck_fields r1) as (Ht & Hv & _ & Hid & Hreps & Hvs).
      eapply contract_win; [done|congruence|done|done|done|done|done| |].
      * unfold becomeElectionAck. rewrite bcast_eq. reflexivity.
      * apply bcastOut_no_grant; [reflexivity|discriminate].
    + destruct (becomeLeader_fields r1) as (Ht & Hv & _ & Hid & Hreps & Hvs).
      unfold bcastAppend. rewrite bcast_eq.
      eapply contract_win; [done|congruence|done|done|done|done|done| |].
      * reflexivity.
      * apply bcastOut_no_grant; [exact Hid|discriminate].
    + apply contract_becomeFollower; lia.
    + by apply contract_refl.
Qed.

Lemma contract_dispatch h r m :
  votes_in h r → elected h r → mFrom m ≠ NoLeader → mTo m = nodeID r →
  grant_in h m → (mType m = RespMsgVote → mTerm m = term r) →
  contract h r (dispatch r m).
Proof.
  intros Hin Hel Hf Hto Hg Htm. unfold dispatch. destruct (state r) eqn:Hs.
  - by apply contract_stepFollower.
  - by apply contract_stepCandidate.
  - by apply contract_stepLeader.
  - by apply contract_stepLeader.
Qed.

Lemma contract_Step h r m :
  votes_in h r → elected h r → mFrom m ≠ NoLeader → mTo m = nodeID r →
  grant_in h m → contract h r (Step r m).
Proof.
  intros Hin Hel Hf Hto Hg. unfold Step.
  destruct (decide (mType m = LocalMsgProp)) as [Hl|Hl].
  { apply contract_dispatch; try done. intros Ht. congruence. }
  destruct (decide (term r < mTerm m)) as [Hlt|Hlt].
  { set (lead := if leaderMsg (mType m) then mFrom m else NoLeader).
    apply (contract_trans h r (becomeFollower r (mTerm m) lead));
      [reflexivity | apply contract_becomeFollower; lia |].
    destruct (becomeFollower_inv h r (mTerm m) lead) as [Hin' Hel'].
    apply contract_dispatch; [done|done|done|exact Hto|done|].
    intros _. reflexivity. }
  destruct (decide (mTerm m < term r)) as [Hgt|Hgt].
  { destruct (respType (mType m)); [frame | by apply contract_refl]. }
  apply contract_dispatch; try done. intros _. lia.
Qed.

Lemma contract_campaign h r force r' :
  isVoter r (nodeID r) = true → campaign r force = Some r' → contract h r r'.
Proof.
  intros Hvoter Hc.
  destruct (isNeedBecomeFollower r) as [[|]|] eqn:Hn.
  - unfold campaign in Hc. rewrite Hn in Hc. injection Hc as <-.
    apply contract_becomeFollower; lia.
  - destruct (decide (state r = stateLeader)) as [Hl|Hl].
    { rewrite campaign_leader_panics in Hc by done. discriminate. }
    rewrite campaign_candidate_path in Hc by done. injection Hc as <-.
    set (r2 := set_votes {[nodeID r := true]}
                 (set_state stateCandidate (set_vote (nodeID r) (reset r (S (term r)))))).
    destruct (decide (quorum r = 1)) as [Hq|Hq]; [destruct (leaseCheck r)|].
    + destruct (becomeElectionAck_fields r2) as (Ht & Hv & _ & Hid & Hreps & Hvs).
      eapply (contract_intro h r);
        [ exact Hid | exact Hreps
        | unfold becomeElectionAck; rewrite bcast_eq; reflexivity
        | apply bcastOut_no_grant; [reflexivity | discriminate]
        | right; split; [rewrite Ht; simpl; lia | right; exact Hvoter]
        | by apply votes_ok_empty | ].
      intros _. exists {[nodeID r]}.
      rewrite (quorum_same r _ Hreps), Hq, size_singleton. split; [lia|].
      intros v Hv'. right. apply elem_of_singleton in Hv'. subst v.
      split; [symmetry; exact Hid | rewrite Hv, Hid; reflexivity].
    + destruct (becomeLeader_fields r2) as (Ht & Hv & _ & Hid & Hreps & Hvs).
      eapply (contract_intro h r _ []);
        [ exact Hid | exact Hreps | by rewrite app_nil_r | constructor
        | right; split; [rewrite Ht; simpl; lia | right; exact Hvoter]
        | by apply votes_ok_empty | ].
      intros _. exists {[nodeID r]}.
      rewrite (quorum_same r _ Hreps), Hq, size_singleton. split; [lia|].
      intros v Hv'. right. apply elem_of_singleton in Hv'. subst v.
      split; [symmetry; exact Hid | rewrite Hv, Hid; reflexivity].
    + rewrite sendVoteRequests_eq.
      eapply (contract_intro h r);
        [ reflexivity | reflexivity | reflexivity
        | apply voteReqOut_no_grant; reflexivity
        | right; split; [simpl; lia | right; exact Hvoter]
        | | apply leader_ok_follower; right; reflexivity ].
      intros v Hv. right. simpl in Hv |- *.
      destruct (decide (v = nodeID r)) as [->|Hne]; [done|].
      rewrite lookup_singleton_ne in Hv by done. discriminate.
  - unfold campaign in Hc. rewrite Hn in Hc. discriminate.
Qed.

Lemma contract_handle h r ev r' :
  votes_in h r → elected h r → msgs r = [] → handle r ev = Some r' → contract h r r'.
Proof.
  intros Hin Hel Hm Hh. destruct ev; simpl in Hh.
  - destruct (isVoter r (nodeID r)) eqn:Hv; [|discriminate].
    by eapply contract_campaign.
  - injection Hh as <-. frame.
  - destruct (decide _); [|discriminate]. injection Hh as <-.
    rewrite bcast_eq. frame.
  - destruct (decide _); [|discriminate]. injection Hh as <-.
    unfold bcastAppend. rewrite bcast_eq. frame.
  - destruct (decide _) as [Hs|]; [|discriminate]. injection Hh as <-.
    destruct (becomeLeader_fields r) as (Ht & Hv & _ & Hid & Hreps & Hvs).
    apply (contract_intro h r _ []);
      [ exact Hid | exact Hreps | by rewrite app_nil_r | constructor
      | left; done | by apply votes_ok_empty | ].
    intros _. destruct (Hel (or_intror Hs)) as (Q & HQ & HQv). exists Q.
    rewrite (quorum_same r _ Hreps), Ht, Hid. split; [done|].
    intros v Hv'. left. by apply HQv.
  - destruct (decide _); [|discriminate]. injection Hh as <-.
    apply contract_becomeFollower; lia.
  - injection Hh as <-.
    apply (contract_intro h r _ []);
      [ reflexivity | reflexivity | simpl; by rewrite Hm | constructor
      | left; done | by apply votes_ok_empty
      | apply leader_ok_follower; left; reflexivity ].
Qed.

(** ** The cluster invariant *)

Lemma record_vote_old n r h x : x ∈ h → x ∈ record_vote n r h.
Proof. unfold record_vote. case_decide; [done|]. intros. by apply elem_of_cons; right. Qed.

Lemma record_vote_new n r h : vote r ≠ NoLeader → (n, term r, vote r) ∈ record_vote n r h.
Proof. unfold record_vote. case_decide; [done|]. intros. by apply elem_of_cons; left. Qed.

Lemma record_vote_elem n r h x :
  x ∈ record_vote n r h → x ∈ h ∨ (x = (n, term r, vote r) ∧ vote r ≠ NoLeader).
Proof.
  unfold record_vote. case_decide; [by left|].
  rewrite elem_of_cons. intros [->|?]; [right|left]; done.
Qed.

Section Safety.

Variable cfg : gmap nat replica.
Variable tick : nat.
Variable lease : bool.
Hypothesis cfg_nonzero : NoLeader ∉ dom cfg.

Lemma inv_init : inv cfg (initCluster cfg tick lease).
Proof.
  constructor; simpl.
  - done.
  - intros v t x H. by apply elem_of_nil in H.
  - intros v t x y H. by apply elem_of_nil in H.
  - intros n v. simpl. rewrite lookup_empty. discriminate.
  - intros n [H|H]; discriminate.
  - done.
  - intros m H. by apply elem_of_nil in H.
  - intros m H. by apply elem_of_nil in H.
Qed.

Lemma inv_commit c n r' :
  inv cfg c → n ∈ dom cfg → contract (granted c) (nodes c n) r' →
  inv cfg (commit c n r').
Proof.
  intros I Hn C.
  destruct (inv_wf _ _ I n) as (Hid0 & Hreps0 & Hm0).
  destruct C as [Hid Hreps Hm Ht Hv Hvt Hvs Hl].
  set (r := nodes c n) in *. set (h := granted c) in *.
  rewrite Hid0 in Hid. rewrite Hreps0 in Hreps.
  assert (Hn0 : n ≠ NoLeader) by (intros ->; contradiction).
  assert (Hvoter : vote r' ≠ NoLeader → n ∈ voterSet cfg).
  { intros Hnz. destruct Hvt as [?|[Heq|Hiv]]; [done| |].
    - destruct (decide (n ∈ voterSet cfg)) as [?|Hnv]; [done|].
      exfalso. apply Hnz. rewrite Heq. by apply (inv_learner _ _ I).
    - unfold isVoter in Hiv. apply bool_decide_eq_true in Hiv.
      by rewrite Hid0, Hreps0 in Hiv. }
  assert (Hsame : ∀ t y, (n, t, y) ∈ h → t = term r' → vote r' = y).
  { intros t y Hy ->.
    destruct (inv_hist _ _ I n _ y Hy) as (_ & Hy0 & Hle & Hyv).
    fold r in Hle, Hyv. assert (Hte : term r' = term r) by lia.
    specialize (Hyv Hte). destruct (Hv Hte) as [?|?]; congruence. }
  destruct Hm as (out & Hout & Hok). rewrite Hm0 in Hout. simpl in Hout.
  constructor; simpl.
  - intros k. destruct (decide (k = n)) as [->|]; [done|]. apply (inv_wf _ _ I).
  - intros v t x Hx. apply record_vote_elem in Hx as [Hx|[Heq Hnz]].
    + destruct (inv_hist _ _ I v t x Hx) as (Hvv & Hx0 & Hle & Heqv).
      destruct (decide (v = n)) as [->|]; [|done]. simpl.
      split; [done|]. split; [done|]. split; [fold r in Hle; lia|].
      intros Ht'. apply (Hsame t x Hx Ht').
    + injection Heq as -> -> ->. rewrite decide_True by done. simpl. auto.
  - intros v t x y Hx Hy.
    apply record_vote_elem in Hx as [Hx|[Hx Hxz]];
      apply record_vote_elem in Hy as [Hy|[Hy Hyz]].
    + by apply (inv_func _ _ I v t).
    + injection Hy as -> -> ->. symmetry. exact (Hsame (term r') x Hx eq_refl).
    + injection Hx as -> -> ->. exact (Hsame (term r') y Hy eq_refl).
    + congruence.
  - intros k v. destruct (decide (k = n)) as [->|Hk].
    + simpl. intros Hs. rewrite Hid.
      destruct (Hvs v Hs) as [H|[-> Hvn]]; [rewrite Hid in H; by apply record_vote_old|].
      rewrite Hid in Hvn |- *. rewrite <- Hvn at 2. apply record_vote_new.
      by rewrite Hvn.
    + intros Hs. apply record_vote_old. by apply (inv_votes _ _ I).
  - intros k Hs. destruct (decide (k = n)) as [->|Hk].
    + destruct (Hl Hs) as (Q & HQ & HQv). exists Q. split; [done|].
      intros v Hv'. simpl. rewrite Hid.
      destruct (HQv v Hv') as [H|[-> Hvn]]; [rewrite Hid in H; by apply record_vote_old|].
      rewrite Hid in Hvn |- *. rewrite <- Hvn at 2. apply record_vote_new.
      by rewrite Hvn.
    + destruct (inv_leader _ _ I k Hs) as (Q & HQ & HQv). exists Q.
      split; [done|]. intros v Hv'. apply record_vote_old. by apply HQv.
  - intros k Hk. destruct (decide (k = n)) as [->|].
    + simpl. destruct (decide (vote r' = NoLeader)) as [?|Hnz]; [done|].
      exfalso. by apply Hk, Hvoter.
    + by apply (inv_learner _ _ I).
  - intros m Hmem. rewrite Hout in Hmem. apply elem_of_app in Hmem as [Hmem|Hmem].
    + by apply (inv_net_from _ _ I).
    + rewrite Forall_forall in Hok. destruct (Hok m Hmem) as [Hf _].
      by rewrite Hf, Hid.
  - intros m Hmem. rewrite Hout in Hmem. apply elem_of_app in Hmem as [Hmem|Hmem].
    + intros Hty Hrej. apply record_vote_old. by apply (inv_net_grant _ _ I).
    + rewrite Forall_forall in Hok. destruct (Hok m Hmem) as [Hf Hg].
      intros Hty Hrej. destruct (Hg Hty Hrej) as (-> & -> & Hnz).
      rewrite Hf, Hid. by apply record_vote_new.
Qed.

Lemma inv_step c c' : inv cfg c → cstep cfg c c' → inv cfg c'.
Proof.
  intros I Hs. destruct Hs as [n ev r Hn Hh | n m Hn Hm Hto].
  - apply inv_commit; [done|done|].
    destruct (inv_wf _ _ I n) as (_ & _ & Hmsgs).
    eapply contract_handle;
      [apply (inv_votes _ _ I) | apply (inv_leader _ _ I) | exact Hmsgs | exact Hh].
  - apply inv_commit; [done|done|].
    destruct (inv_wf _ _ I n) as (Hid & _ & _).
    apply contract_Step.
    + apply (inv_votes _ _ I).
    + apply (inv_leader _ _ I).
    + intros Hf. apply cfg_nonzero. rewrite <- Hf. by apply (inv_net_from _ _ I).
    + by rewrite Hid.
    + by apply (inv_net_grant _ _ I).
Qed.

Lemma inv_reachable c : reachable cfg tick lease c → inv cfg c.
Proof.
  induction 1 as [|c c' _ IH Hs]; [apply inv_init|]. by apply (inv_step c).
Qed.

(** Two nodes elected in the same term share a voter of both quorums,
    and a voter grants one vote per term. *)
Lemma elected_unique c n1 n2 :
  inv cfg c →
  state (nodes c n1) = stateLeader ∨ state (nodes c n1) = stateElectionAck →
  state (nodes c n2) = stateLeader ∨ state (nodes c n2) = stateElectionAck →
  term (nodes c n1) = term (nodes c n2) → n1 = n2.
Proof.
  intros I H1 H2 Ht.
  destruct (inv_leader _ _ I n1 H1) as (Q1 & HQ1 & HQv1).
  destruct (inv_leader _ _ I n2 H2) as (Q2 & HQ2 & HQv2).
  destruct (inv_wf _ _ I n1) as (Hid1 & Hreps1 & _).
  destruct (inv_wf _ _ I n2) as (Hid2 & Hreps2 & _).
  rewrite Hid1 in HQv1. rewrite Hid2, <- Ht in HQv2.
  assert (Hq : quorum (nodes c n2) = quorum (nodes c n1)) by (apply quorum_same; congruence).
  pose proof (quorum_double (nodes c n1)) as Hdbl. rewrite Hreps1 in Hdbl.
  assert (Hsub : Q1 ∪ Q2 ⊆ voterSet cfg).
  { intros v Hv. apply elem_of_union in Hv as [Hv|Hv].
    - apply (inv_hist _ _ I v _ n1 (HQv1 v Hv)).
    - apply (inv_hist _ _ I v _ n2 (HQv2 v Hv)). }
  destruct (set_choose_or_empty (Q1 ∩ Q2)) as [[v Hv]|He].
  - apply elem_of_intersection in Hv as [Hv1 Hv2].
    apply (inv_func _ _ I v (term (nodes c n1))); auto.
  - exfalso. assert (Hdis : Q1 ## Q2) by set_solver.
    apply subseteq_size in Hsub. rewrite size_union in Hsub by done. lia.
Qed.

End Safety.

(* ================================================================== *)
(** * Claim about the whole group *)

(** C1.  Election safety: in every reachable state of a group (a fixed
    configuration whose ids are non-zero, under any schedule of local
    events, restarts and deliveries of messages that may be duplicated,
    reordered or lost), two nodes in Leader state at the same term are
    the same node. *)
Theorem election_safety (cfg : gmap nat replica) (tick : nat) (lease : bool) (c : cluster) :
  NoLeader ∉ dom cfg → reachable cfg tick lease c →
  ∀ n1 n2, state (nodes c n1) = stateLeader → state (nodes c n2) = stateLeader →
  term (nodes c n1) = term (nodes c n2) → n1 = n2.
Proof.
  intros H0 Hr n1 n2 H1 H2 Ht.
  apply (elected_unique cfg H0 c n1 n2);
    [exact (inv_reachable cfg tick lease H0 c Hr) | by left | by left | exact Ht].
Qed.

Lemma election_safety_witness :
  (NoLeader ∉ dom reps3) ∧ reachable reps3 10 false elect3_c3 ∧
  state (nodes elect3_c3 1) = stateLeader ∧ state (nodes elect3_c3 2) = stateFollower ∧
  ∀ n2, state (nodes elect3_c3 n2) = stateLeader →
        term (nodes elect3_c3 n2) = term (nodes elect3_c3 1) → n2 = 1.
Proof.
  assert (H0 : NoLeader ∉ dom reps3)
    by (apply (@bool_decide_unpack _ (not_dec (gset_elem_of_dec _ _))); vm_compute; exact I).
  assert (Hr : reachable reps3 10 false elect3_c3).
  { eapply reachable_step; [eapply reachable_step; [eapply reachable_step|]|].
    - apply reachable_init.
    - apply (cstep_event reps3 (initCluster reps3 10 false) 1 (EvCampaign false) elect3_fsm1).
      + apply (@bool_decide_unpack _ (gset_elem_of_dec _ _)). vm_compute. exact I.
      + vm_compute. reflexivity.
    - apply (cstep_deliver reps3 elect3_c1 2 elect3_req).
      + apply (@bool_decide_unpack _ (gset_elem_of_dec _ _)). vm_compute. exact I.
      + apply list_elem_of_In. vm_compute. repeat (first [left; reflexivity | right]).
      + reflexivity.
    - apply (cstep_deliver reps3 elect3_c2 1 elect3_grant).
      + apply (@bool_decide_unpack _ (gset_elem_of_dec _ _)). vm_compute. exact I.
      + apply list_elem_of_In. vm_compute. repeat (first [left; reflexivity | right]).
      + reflexivity. }
  assert (Hs : state (nodes elect3_c3 1) = stateLeader) by (vm_compute; reflexivity).
  assert (Hf : state (nodes elect3_c3 2) = stateFollower) by (vm_compute; reflexivity).
  split; [exact H0|]. split; [exact Hr|]. split; [exact Hs|]. split; [exact Hf|].
  intros n2 Hn2 Ht.
  exact (election_safety reps3 10 false elect3_c3 H0 Hr n2 1 Hn2 Hs Ht).
Defined.

(* ================================================================== *)
(** * Further properties of the code *)

(** ** transport_sender.go: where [sender.send] puts a message *)

Open Scope Z_scope.

Lemma land_pow2_pred (k : Z) : 0 ≤ k → Z.land (2 ^ k) (2 ^ k - 1) = 0.
Proof.
  intros Hk. apply Z.bits_inj'. intros n Hn.
  rewrite Z.land_spec, Z.bits_0, Z.pow2_bits_eqb by lia.
  replace (2 ^ k - 1) with (Z.ones k) by (rewrite Z.ones_equiv; lia).
  rewrite Z.testbit_ones_nonneg by lia.
  destruct (Z.eqb_spec k n) as [->|]; [rewrite Z.ltb_irrefl|]; reflexivity.
Qed.

Lemma land_pow2 (id k : Z) :
  0 ≤ k → Z.land id (2 ^ k) = if Z.testbit id k then 2 ^ k else 0.
Proof.
  intros Hk. apply Z.bits_inj'. intros n Hn.
  rewrite Z.land_spec, Z.pow2_bits_eqb by lia.
  destruct (Z.testbit id k) eqn:E.
  - rewrite Z.pow2_bits_eqb by lia.
    destruct (Z.eqb_spec k n) as [->|]; [rewrite E|rewrite andb_false_r]; reflexivity.
  - rewrite Z.bits_0. destruct (Z.eqb_spec k n) as [->|]; [rewrite E|rewrite andb_false_r];
      reflexivity.
Qed.

(** With zero channels every send panics; with one channel every message
    goes to channel 0. *)
Theorem senderSend_small_concurrency (id : Z) :
  senderSend id 0 = None ∧ senderSend id 1 = Some 0.
Proof. split; reflexivity. Qed.

(** With a power-of-two concurrency [2^k] (k ≥ 1) the index
    [(ID & 2^k) - 1] is [2^k - 1] when bit [k] of the ID is set and [-1]
    otherwise: the message goes to the last channel, or the send panics.
    No other channel is ever used. *)
Theorem senderSend_pow2 (id k : Z) :
  1 ≤ k ≤ 63 →
  senderSend id (2 ^ k) = if Z.testbit id k then Some (2 ^ k - 1) else None.
Proof.
  intros Hk.
  assert (Hp : 2 ≤ 2 ^ k ≤ 2 ^ 63).
  { split; [change 2 with (2 ^ 1) at 1|]; apply Z.pow_le_mono_r; lia. }
  unfold senderSend, sendIdx.
  assert (Hu : u64 (2 ^ k - 1) = 2 ^ k - 1) by (unfold u64; apply Z.mod_small; lia).
  rewrite Hu, land_pow2_pred by lia. rewrite Z.eqb_refl.
  unfold sendIdxPow2. rewrite (proj2 (Z.ltb_lt 1 (2 ^ k))) by lia.
  rewrite land_pow2 by lia. destruct (Z.testbit id k).
  - rewrite Hu. unfold int_of_u64. rewrite (proj2 (Z.ltb_lt _ (2 ^ 63))) by lia.
    rewrite (proj2 (Z.leb_le 0 _)) by lia. rewrite (proj2 (Z.ltb_lt _ (2 ^ k))) by lia.
    reflexivity.
  - reflexivity.
Qed.

Lemma senderSend_pow2_witness :
  (1 ≤ 2 ≤ 63) ∧ senderSend 5 (2 ^ 2) = Some 3 ∧ senderSend 3 (2 ^ 2) = None.
Proof.
  split; [lia|]. split.
  - exact (senderSend_pow2 5 2 ltac:(lia)).
  - exact (senderSend_pow2 3 2 ltac:(lia)).
Defined.

(** With a concurrency that is not a power of two (up to [2^63], so that
    [int] of the index stays non-negative) the message goes to channel
    [ID mod concurrency]; the send never panics. *)
Theorem senderSend_mod (id c : Z) :
  1 < c ≤ 2 ^ 63 → Z.land c (c - 1) ≠ 0 →
  senderSend id c = Some (id mod c).
Proof.
  intros Hc Hl. unfold senderSend, sendIdx.
  assert (Hu : u64 (c - 1) = c - 1) by (unfold u64; apply Z.mod_small; lia).
  rewrite Hu, (proj2 (Z.eqb_neq _ _)) by done.
  unfold sendIdxMod. rewrite (proj2 (Z.ltb_lt 1 c)) by lia.
  pose proof (Z.mod_pos_bound id c ltac:(lia)).
  unfold int_of_u64. rewrite (proj2 (Z.ltb_lt _ (2 ^ 63))) by lia.
  rewrite (proj2 (Z.leb_le 0 _)) by lia. rewrite (proj2 (Z.ltb_lt _ c)) by lia.
  reflexivity.
Qed.

Lemma senderSend_mod_witness :
  (1 < 3 ≤ 2 ^ 63) ∧ Z.land 3 (3 - 1) ≠ 0 ∧ senderSend 7 3 = Some 1.
Proof.
  assert (H1 : 1 < 3 ≤ 2 ^ 63) by lia.
  assert (H2 : Z.land 3 (3 - 1) ≠ 0) by (vm_compute; discriminate).
  split; [exact H1|]. split; [exact H2|].
  exact (senderSend_mod 7 3 H1 H2).
Defined.

Close Scope Z_scope.

(** ** raft_fsm_candidate.go: the tally *)

(** The first response of a peer is recorded and adds one to the granted
    count exactly when it is a grant. *)
Theorem poll_records_first_response (r : raftFsm) (id : nat) (v : bool) :
  votes r !! id = None →
  votes (poll r id v).1 = <[id := v]> (votes r) ∧
  (poll r id v).2 = grantedCount (votes r) + (if v then 1 else 0).
Proof.
  intros Hn. unfold poll. rewrite Hn. simpl. split; [reflexivity|].
  unfold grantedCount. rewrite map_fold_insert_L; [| |exact Hn].
  - destruct v; simpl; lia.
  - intros j1 j2 [] [] y _ _ _; reflexivity.
Qed.

Lemma poll_records_first_response_witness :
  votes cand2 !! 1 = None ∧
  (poll cand2 1 true).2 = grantedCount (votes cand2) + 1.
Proof.
  assert (H : votes cand2 !! 1 = None) by reflexivity.
  split; [exact H|]. exact (proj2 (poll_records_first_response cand2 1 true H)).
Defined.

(** The granted count plus the number of [false] entries is the size of
    the tally: [len(r.votes) - gr] in [stepCandidate] is the number of
    rejections. *)
Theorem grantedCount_rejections (vs : gmap nat bool) :
  grantedCount vs + size (filter (λ kv : nat * bool, kv.2 = false) vs) = size vs.
Proof.
  unfold grantedCount.
  induction vs as [|i x m Hi IH] using map_ind.
  - rewrite map_fold_empty, map_filter_empty, !map_size_empty. reflexivity.
  - rewrite map_fold_insert_L; [| |exact Hi].
    2:{ intros j1 j2 [] [] y _ _ _; reflexivity. }
    rewrite map_size_insert_None by exact Hi.
    rewrite map_filter_insert. case_decide as Hd; simpl in Hd.
    + subst x. rewrite map_size_insert_None; [simpl; lia|].
      apply map_lookup_filter_None. by left.
    + destruct x; [|done]. rewrite delete_id by exact Hi. simpl. lia.
Qed.

(** ** raft_fsm_candidate.go: what a candidate's step never does *)

(** A candidate's step keeps its term and its vote, whatever the message. *)
Theorem stepCandidate_keeps_term_vote (r : raftFsm) (m : message) :
  term (stepCandidate r m) = term r ∧ vote (stepCandidate r m) = vote r.
Proof.
  unfold stepCandidate. destruct (mType m); try (split; reflexivity).
  - simpl. rewrite decide_True by done. split; reflexivity.
  - simpl. rewrite decide_True by done. split; reflexivity.
  - simpl. rewrite decide_True by done. split; reflexivity.
  - destruct (poll_fields r (mFrom m) (negb (mReject m)))
      as (_ & Ht1 & Hv1 & _).
    destruct (poll r (mFrom m) (negb (mReject m))) as [r1 gr].
    simpl in Ht1, Hv1.
    destruct (decide (quorum r1 = gr)); [destruct (leaseCheck r1)|destruct (decide _)].
    + destruct (becomeElectionAck_fields r1) as (-> & -> & _). done.
    + destruct (bcastAppend_fields (becomeLeader r1)) as (-> & -> & _).
      destruct (becomeLeader_fields r1) as (-> & -> & _). done.
    + destruct (becomeFollower_fields r1 (term r1) NoLeader) as (_ & _ & _ & -> & -> & _).
      rewrite decide_True by done. done.
    + done.
Qed.

(** A candidate never grants a vote: its step only appends to the outbox,
    and every message it appends comes from the node and is not a
    granted [RespMsgVote]. *)
Theorem stepCandidate_never_grants (r : raftFsm) (m : message) :
  ∃ out, msgs (stepCandidate r m) = msgs r ++ out ∧ Forall (no_grant r) out.
Proof.
  unfold stepCandidate. destruct (mType m) eqn:Hty;
    try (exists []; split; [by rewrite app_nil_r | constructor]).
  - eexists. split; [reflexivity|]. out_ok.
  - eexists. split; [reflexivity|]. out_ok.
  - eexists. split; [reflexivity|]. out_ok.
  - destruct (poll_fields r (mFrom m) (negb (mReject m)))
      as (_ & _ & _ & _ & _ & Hid1 & _ & _ & Hm1 & _).
    destruct (poll r (mFrom m) (negb (mReject m))) as [r1 gr].
    simpl in Hid1, Hm1.
    destruct (decide (quorum r1 = gr)); [destruct (leaseCheck r1)|destruct (decide _)].
    + unfold becomeElectionAck. rewrite bcast_eq. eexists. split.
      * simpl. rewrite Hm1. reflexivity.
      * apply bcastOut_no_grant; [exact Hid1|discriminate].
    + unfold bcastAppend. rewrite bcast_eq. eexists. split.
      * simpl. rewrite Hm1. reflexivity.
      * apply bcastOut_no_grant; [exact Hid1|discriminate].
    + exists []. split; [simpl; by rewrite Hm1, app_nil_r | constructor].
    + exists []. split; [by rewrite Hm1, app_nil_r | constructor].
Qed.

(** A repeated response from a peer already in the tally changes nothing
    while the tally is at neither threshold. *)
Theorem stepCandidate_duplicate_response (r : raftFsm) (m : message) (b : bool) :
  mType m = RespMsgVote → votes r !! mFrom m = Some b →
  quorum r ≠ grantedCount (votes r) →
  quorum r ≠ size (votes r) - grantedCount (votes r) →
  stepCandidate r m = r.
Proof.
  intros Hty Hb Hq1 Hq2. unfold stepCandidate. rewrite Hty.
  unfold poll. rewrite Hb. simpl. rewrite !decide_False by done. reflexivity.
Qed.

Lemma stepCandidate_duplicate_response_witness :
  let m := mkMessage RespMsgVote 2 2 1 0 0 false false in
  mType m = RespMsgVote ∧ votes cand2 !! mFrom m = Some true ∧
  quorum cand2 ≠ grantedCount (votes cand2) ∧
  quorum cand2 ≠ size (votes cand2) - grantedCount (votes cand2) ∧
  stepCandidate cand2 m = cand2.
Proof.
  intros m.
  assert (H1 : mType m = RespMsgVote) by reflexivity.
  assert (H2 : votes cand2 !! mFrom m = Some true) by reflexivity.
  assert (H3 : quorum cand2 ≠ grantedCount (votes cand2)) by (vm_compute; discriminate).
  assert (H4 : quorum cand2 ≠ size (votes cand2) - grantedCount (votes cand2))
    by (vm_compute; discriminate).
  split; [exact H1|]. split; [exact H2|]. split; [exact H3|]. split; [exact H4|].
  exact (stepCandidate_duplicate_response cand2 m true H1 H2 H3 H4).
Defined.

(** ** raft_fsm_candidate.go: the degrade rotation *)

Lemma sortedPeerIDs_perm (r : raftFsm) :
  sortedPeerIDs r ≡ₚ map fst (map_to_list (replicas r)).
Proof. unfold sortedPeerIDs. apply merge_sort_Permutation. Qed.

Lemma sortedPeerIDs_length (r : raftFsm) :
  length (sortedPeerIDs r) = size (replicas r).
Proof.
  rewrite (Permutation_length (sortedPeerIDs_perm r)), length_map.
  apply length_map_to_list.
Qed.

Lemma sortedPeerIDs_elem (r : raftFsm) (i : nat) :
  In i (sortedPeerIDs r) ↔ i ∈ dom (replicas r).
Proof.
  split.
  - intros Hi. apply (Permutation_in _ (sortedPeerIDs_perm r)) in Hi.
    apply in_map_iff in Hi as ([j x] & <- & Hin). simpl.
    apply list_elem_of_In, elem_of_map_to_list in Hin.
    apply elem_of_dom. by exists x.
  - intros Hi. apply elem_of_dom in Hi as [x Hx].
    apply (Permutation_in _ (Permutation_sym (sortedPeerIDs_perm r))).
    apply in_map_iff. exists (i, x). split; [reflexivity|].
    apply list_elem_of_In, elem_of_map_to_list. exact Hx.
Qed.

Lemma map_fst_fmap {A B : Type} (l : list (A * B)) : map fst l = l.*1.
Proof. induction l as [|x l IH]; simpl; [done|by rewrite IH]. Qed.

Lemma sortedPeerIDs_NoDup (r : raftFsm) : List.NoDup (sortedPeerIDs r).
Proof.
  apply (Permutation_NoDup (Permutation_sym (sortedPeerIDs_perm r))).
  apply NoDup_ListNoDup. rewrite map_fst_fmap. apply NoDup_fst_map_to_list.
Qed.

Lemma isNeedBecomeFollower_true_iff (r : raftFsm) :
  isNeedBecomeFollower r = Some true ↔
  state r = stateCandidate ∧ 0 < length (sortedPeerIDs r) ∧
  nth (term r mod length (sortedPeerIDs r)) (sortedPeerIDs r) 0 = nodeID r.
Proof.
  unfold isNeedBecomeFollower. case_decide as Hc.
  - destruct (length (sortedPeerIDs r)) as [|n] eqn:Hl.
    + split; [discriminate|lia].
    + split.
      * intros H. injection H as H. apply bool_decide_eq_true_1 in H.
        split; [done|]. split; [lia|]. exact H.
      * intros (_ & _ & H). f_equal. apply bool_decide_eq_true_2. exact H.
  - split; [discriminate|]. intros [? _]. done.
Qed.

(** The node degrades only as a Candidate that is one of its own
    replicas: the id picked from the sorted replica ids is a replica. *)
Theorem isNeedBecomeFollower_member (r : raftFsm) :
  isNeedBecomeFollower r = Some true →
  state r = stateCandidate ∧ nodeID r ∈ dom (replicas r).
Proof.
  intros H. apply isNeedBecomeFollower_true_iff in H as (Hc & Hlen & Hn).
  split; [exact Hc|]. apply sortedPeerIDs_elem. rewrite <- Hn.
  apply nth_In, Nat.mod_upper_bound. lia.
Qed.

Lemma isNeedBecomeFollower_member_witness :
  isNeedBecomeFollower (set_term 1 cand2) = Some true ∧
  state (set_term 1 cand2) = stateCandidate ∧
  nodeID (set_term 1 cand2) ∈ dom (replicas (set_term 1 cand2)).
Proof.
  assert (H : isNeedBecomeFollower (set_term 1 cand2) = Some true) by (vm_compute; reflexivity).
  split; [exact H|]. exact (isNeedBecomeFollower_member _ H).
Defined.

Lemma mod_window (n t1 t2 b : nat) :
  0 < n → b ≤ t1 < b + n → b ≤ t2 < b + n → t1 mod n = t2 mod n → t1 = t2.
Proof.
  intros Hn H1 H2 Hm.
  pose proof (Nat.div_mod_eq t1 n). pose proof (Nat.div_mod_eq t2 n).
  pose proof (Nat.mod_upper_bound t1 n ltac:(lia)).
  assert (t1 / n = t2 / n).
  { destruct (Nat.lt_trichotomy (t1 / n) (t2 / n)) as [Hlt|[Heq|Hlt]]; [|exact Heq|].
    - assert (n * (t1 / n) + n ≤ n * (t2 / n)) by nia. lia.
    - assert (n * (t2 / n) + n ≤ n * (t1 / n)) by nia. lia. }
  lia.
Qed.

(** Over any [len(replicas)] consecutive terms a Candidate that is one of
    its replicas is told to degrade at exactly one term. *)
Theorem isNeedBecomeFollower_rotation (r : raftFsm) :
  state r = stateCandidate → nodeID r ∈ dom (replicas r) →
  ∃ t, term r ≤ t < term r + size (replicas r) ∧
       isNeedBecomeFollower (set_term t r) = Some true ∧
       ∀ t', term r ≤ t' < term r + size (replicas r) →
             isNeedBecomeFollower (set_term t' r) = Some true → t' = t.
Proof.
  intros Hc Hin.
  assert (Hperm : ∀ t, sortedPeerIDs (set_term t r) = sortedPeerIDs r) by reflexivity.
  set (L := sortedPeerIDs r) in *. set (n := size (replicas r)).
  assert (Hl : length L = n) by apply sortedPeerIDs_length.
  apply sortedPeerIDs_elem in Hin. fold L in Hin.
  apply In_nth with (d := 0) in Hin as (i & Hi & Hni).
  assert (Hn0 : n ≠ 0) by lia.
  assert (Hiff : ∀ t, isNeedBecomeFollower (set_term t r) = Some true ↔ t mod n = i).
  { intros t. rewrite isNeedBecomeFollower_true_iff, Hperm. simpl. fold L. rewrite Hl.
    split.
    - intros (_ & _ & Ht). apply (proj1 (NoDup_nth L 0) (sortedPeerIDs_NoDup r));
        [rewrite Hl; apply Nat.mod_upper_bound; lia|lia|congruence].
    - intros Ht. rewrite Ht. split; [exact Hc|]. split; [lia|exact Hni]. }
  exists (term r + (i + n - term r mod n) mod n). split; [|split].
  - pose proof (Nat.mod_upper_bound (i + n - term r mod n) n Hn0). lia.
  - apply Hiff. rewrite Nat.Div0.add_mod_idemp_r.
    pose proof (Nat.div_mod_eq (term r) n).
    pose proof (Nat.mod_upper_bound (term r) n Hn0).
    replace (term r + (i + n - term r mod n)) with (i + (term r / n + 1) * n) by nia.
    rewrite Nat.Div0.mod_add. apply Nat.mod_small. lia.
  - intros t' Ht' Hs. apply Hiff in Hs.
    pose proof (Nat.mod_upper_bound (i + n - term r mod n) n Hn0).
    apply (mod_window n t' _ (term r)); [lia|exact Ht'|lia|].
    rewrite Hs. rewrite Nat.Div0.add_mod_idemp_r.
    pose proof (Nat.div_mod_eq (term r) n).
    pose proof (Nat.mod_upper_bound (term r) n Hn0).
    replace (term r + (i + n - term r mod n)) with (i + (term r / n + 1) * n) by nia.
    rewrite Nat.Div0.mod_add. symmetry. apply Nat.mod_small. lia.
Qed.

Lemma isNeedBecomeFollower_rotation_witness :
  state cand2 = stateCandidate ∧ nodeID cand2 ∈ dom (replicas cand2) ∧
  ∃ t, term cand2 ≤ t < term cand2 + size (replicas cand2) ∧
       isNeedBecomeFollower (set_term t cand2) = Some true ∧
       ∀ t', term cand2 ≤ t' < term cand2 + size (replicas cand2) →
             isNeedBecomeFollower (set_term t' cand2) = Some true → t' = t.
Proof.
  assert (H1 : state cand2 = stateCandidate) by reflexivity.
  assert (H2 : nodeID cand2 ∈ dom (replicas cand2)) by (vm_compute; set_solver).
  split; [exact H1|]. split; [exact H2|].
  exact (isNeedBecomeFollower_rotation cand2 H1 H2).
Defined.

(** [campaign] panics exactly on a Leader and on a Candidate with no
    replicas (the modulo by zero in [isNeedBecomeFollower]). *)
Theorem campaign_panics_iff (r : raftFsm) (force : bool) :
  campaign r force = None ↔
  state r = stateLeader ∨ (state r = stateCandidate ∧ replicas r = ∅).
Proof.
  destruct (isNeedBecomeFollower r) as [[|]|] eqn:Hn.
  - unfold campaign. rewrite Hn. split; [discriminate|].
    apply isNeedBecomeFollower_true_iff in Hn as (Hc & Hlen & _).
    rewrite sortedPeerIDs_length in Hlen.
    intros [Hl|[_ He]]; [congruence|]. rewrite He, map_size_empty in Hlen. lia.
  - destruct (decide (state r = stateLeader)) as [Hl|Hl].
    + rewrite campaign_leader_panics by done. split; [by left|done].
    + rewrite campaign_candidate_path by done. split; [discriminate|].
      intros [?|[Hc He]]; [done|].
      unfold isNeedBecomeFollower in Hn. rewrite decide_True in Hn by done.
      pose proof (sortedPeerIDs_length r) as Hlen. rewrite He, map_size_empty in Hlen.
      rewrite Hlen in Hn. discriminate.
  - unfold campaign. rewrite Hn. split; [|done]. intros _.
    unfold isNeedBecomeFollower in Hn. case_decide as Hc; [|discriminate].
    right. split; [exact Hc|].
    pose proof (sortedPeerIDs_length r) as Hlen.
    destruct (length (sortedPeerIDs r)) eqn:Hl; [|discriminate].
    apply map_size_empty_iff. lia.
Qed.

(** ** part_000: [waitAndValidElect] *)

Lemma leadersSeen_cons (s : nat) (ts : list nat) (b : bool) (ans : list bool) :
  leadersSeen (s :: ts) (b :: ans) =
  if b then s :: leadersSeen ts ans else leadersSeen ts ans.
Proof. unfold leadersSeen. destruct b; reflexivity. Qed.

Lemma wavPass_flag_aux (ts : list nat) (early : bool) (ret : option nat) (obs : list bool) :
  length ts ≤ length obs →
  wavPass ts early true ret obs =
    match ret, leadersSeen ts (take (length ts) obs) with
    | _, [] => PEnd true ret (drop (length ts) obs)
    | None, [s] => PEnd true (Some s) (drop (length ts) obs)
    | _, _ => PNil
    end.
Proof.
  revert ret obs. induction ts as [|x ts IH]; intros ret obs Hlen.
  - destruct ret; reflexivity.
  - destruct obs as [|b obs]; simpl in Hlen; [lia|].
    simpl. rewrite leadersSeen_cons. rewrite !IH by lia.
    destruct b, ret; try reflexivity;
      destruct (leadersSeen ts (take (length ts) obs)); reflexivity.
Qed.

(** Once a leader has been seen ([flag] set), each pass asks every server
    once: the pass returns its only leader, returns nil when two servers
    answer, and starts another pass when none does. *)
Theorem waitAndValidElect_one_leader (fuel : nat) (ts : list nat) (early : bool)
    (obs : list bool) :
  length ts ≤ length obs →
  waitAndValidElect (S fuel) ts early true obs =
    match leadersSeen ts (take (length ts) obs) with
    | [] => waitAndValidElect fuel ts early true (drop (length ts) obs)
    | [s] => Some (Some s)
    | _ => Some None
    end.
Proof.
  intros Hlen. simpl. rewrite wavPass_flag_aux by exact Hlen.
  destruct (leadersSeen ts (take (length ts) obs)) as [|? [|? ?]]; reflexivity.
Qed.

Lemma waitAndValidElect_one_leader_witness :
  length [1; 2; 3] ≤ length [false; true; false] ∧
  waitAndValidElect 1 [1; 2; 3] false true [false; true; false] = Some (Some 2).
Proof.
  assert (H : length [1; 2; 3] ≤ length [false; true; false]) by (simpl; lia).
  split; [exact H|].
  rewrite (waitAndValidElect_one_leader 0 [1; 2; 3] false [false; true; false] H).
  reflexivity.
Defined.

Lemma wavPass_ret (ts : list nat) (early flag : bool) (ret : option nat)
    (obs : list bool) (flag' : bool) (s : nat) (obs' : list bool) :
  wavPass ts early flag ret obs = PEnd flag' (Some s) obs' →
  ret = Some s ∨ In s ts.
Proof.
  revert flag ret obs. induction ts as [|x ts IH]; intros flag ret obs H; simpl in H.
  - injection H as _ -> _. by left.
  - repeat (case_match; try discriminate); subst;
      destruct (IH _ _ _ H) as [Hr|Hr];
      first [ left; congruence | right; left; congruence | right; right; exact Hr ].
Qed.

(** The helper only ever returns one of the servers it was given. *)
Theorem waitAndValidElect_returns_member (fuel : nat) (ts : list nat)
    (early flag : bool) (obs : list bool) (s : nat) :
  waitAndValidElect fuel ts early flag obs = Some (Some s) → In s ts.
Proof.
  revert flag obs. induction fuel as [|f IH]; intros flag obs H; simpl in H; [discriminate|].
  destruct (wavPass ts early flag None obs) as [| |flag' [s'|] obs'] eqn:Hp;
    try discriminate.
  - injection H as ->. destruct (wavPass_ret _ _ _ _ _ _ _ _ Hp); [discriminate|done].
  - exact (IH _ _ H).
Qed.

Lemma waitAndValidElect_returns_member_witness :
  waitAndValidElect 2 [1; 2; 3] false false [false; false; true; true; false]
    = Some (Some 2) ∧ In 2 [1; 2; 3].
Proof.
  assert (H : waitAndValidElect 2 [1; 2; 3] false false [false; false; true; true; false]
                = Some (Some 2)) by reflexivity.
  split; [exact H|]. exact (waitAndValidElect_returns_member _ _ _ _ _ _ H).
Defined.

(** ** raft_fsm_candidate.go: the tally does not check the responder *)

Lemma grantedCount_insert_new (vs : gmap nat bool) (i : nat) (v : bool) :
  vs !! i = None → grantedCount (<[i := v]> vs) = grantedCount vs + (if v then 1 else 0).
Proof.
  intros Hi. unfold grantedCount. rewrite map_fold_insert_L; [| |exact Hi].
  - destruct v; simpl; lia.
  - intros j1 j2 [] [] y _ _ _; reflexivity.
Qed.

(** [poll] records a first response from any sender, replica or not:
    two first responses with the same answer move the candidate to the
    same state, whoever sent them. *)
Theorem stepCandidate_tally_ignores_sender (r : raftFsm) (m1 m2 : message) :
  mType m1 = RespMsgVote → mType m2 = RespMsgVote → mReject m1 = mReject m2 →
  votes r !! mFrom m1 = None → votes r !! mFrom m2 = None →
  state (stepCandidate r m1) = state (stepCandidate r m2) ∧
  term (stepCandidate r m1) = term (stepCandidate r m2).
Proof.
  intros Ht1 Ht2 Hrj H1 H2. unfold stepCandidate. rewrite Ht1, Ht2, <- Hrj.
  unfold poll. rewrite H1, H2. simpl.
  rewrite !grantedCount_insert_new by assumption.
  rewrite !map_size_insert_None by assumption. unfold quorum. simpl.
  destruct (decide _); [destruct (leaseCheck r)|destruct (decide _)].
  - repeat match goal with |- context [becomeElectionAck ?x] =>
      destruct (becomeElectionAck_fields x) as (-> & _ & -> & _) end.
    split; reflexivity.
  - repeat match goal with |- context [bcastAppend (becomeLeader ?x)] =>
      destruct (bcastAppend_fields (becomeLeader x)) as (-> & _ & -> & _);
      destruct (becomeLeader_fields x) as (-> & _ & -> & _) end.
    split; reflexivity.
  - repeat match goal with |- context [becomeFollower ?x ?t ?l] =>
      destruct (becomeFollower_fields x t l) as (_ & _ & _ & -> & _ & -> & _) end.
    split; reflexivity.
  - split; reflexivity.
Qed.

Lemma stepCandidate_tally_ignores_sender_witness :
  let m1 := mkMessage RespMsgVote 1 2 1 0 0 false false in
  let m2 := mkMessage RespMsgVote 7 2 1 0 0 false false in
  (7 ∉ dom (replicas cand2)) ∧
  state (stepCandidate cand2 m1) = stateLeader ∧
  state (stepCandidate cand2 m1) = state (stepCandidate cand2 m2) ∧
  term (stepCandidate cand2 m1) = term (stepCandidate cand2 m2).
Proof.
  intros m1 m2.
  assert (H1 : mType m1 = RespMsgVote) by reflexivity.
  assert (H2 : mType m2 = RespMsgVote) by reflexivity.
  assert (H3 : mReject m1 = mReject m2) by reflexivity.
  assert (H4 : votes cand2 !! mFrom m1 = None) by reflexivity.
  assert (H5 : votes cand2 !! mFrom m2 = None) by reflexivity.
  split; [vm_compute; set_solver|]. split; [vm_compute; reflexivity|].
  exact (stepCandidate_tally_ignores_sender cand2 m1 m2 H1 H2 H3 H4 H5).
Defined.
